(** * Classifier-guided conditional trainer: a shallow embedding

    The development follows [classifier_guided_conditional_trainer.py]:
    a frozen diffusion model proposes images, a segmentation network is
    trained on the clean-image estimate of every timestep, and the gradient
    of the segmentation loss steers the reverse trajectory.

    Tensors are flat lists of exact rationals extended with a NaN that
    propagates through arithmetic; rounding and infinities are left out.
    The networks, the losses, autograd and the sampler of
    [diffusion_solver] enter as an environment record. *)

From Stdlib Require Import QArith Qminmax Qabs Lqa Lia ZArith List String Bool.
From stdpp Require Import gmap strings list fin_maps pretty.

Local Open Scope Q_scope.

(** * Tensor values as the script uses them *)
Module torch.

(** One tensor element: a rational, or NaN. *)
Inductive fval : Type :=
| Real (q : Q)
| NaN.

Definition tensor : Type := list fval.

Definition isfinite (v : fval) : bool :=
  match v with Real _ => true | NaN => false end.

Definition fadd (a b : fval) : fval :=
  match a, b with Real x, Real y => Real (x + y) | _, _ => NaN end.

Definition fsub (a b : fval) : fval :=
  match a, b with Real x, Real y => Real (x - y) | _, _ => NaN end.

Definition fmul (a b : fval) : fval :=
  match a, b with Real x, Real y => Real (x * y) | _, _ => NaN end.

(** Division; a zero divisor gives the non-finite value. *)
Definition fdiv (a b : fval) : fval :=
  match a, b with
  | Real x, Real y => if Qeq_bool y 0 then NaN else Real (x / y)
  | _, _ => NaN
  end.

Definition fabs (a : fval) : fval :=
  match a with Real x => Real (Qabs x) | NaN => NaN end.

(** [==] on elements: NaN equals nothing, itself included. *)
Definition feqb (a b : fval) : bool :=
  match a, b with Real x, Real y => Qeq_bool x y | _, _ => false end.

Definition fleb (a b : fval) : bool :=
  match a, b with Real x, Real y => Qle_bool x y | _, _ => false end.

(** Same value up to the representation of the rational. *)
Definition feq (a b : fval) : Prop :=
  match a, b with
  | Real x, Real y => x == y
  | NaN, NaN => True
  | _, _ => False
  end.

Definition teq (a b : tensor) : Prop := Forall2 feq a b.

(** Elementwise operations on tensors of one shape. *)
Definition tadd (a b : tensor) : tensor := zip_with fadd a b.
Definition tsub (a b : tensor) : tensor := zip_with fsub a b.
Definition tmul (a b : tensor) : tensor := zip_with fmul a b.
Definition tdiv (a b : tensor) : tensor := zip_with fdiv a b.

(** A one-element tensor broadcast against a full one, as in [std * epsilon]. *)
Definition scale (c : fval) (a : tensor) : tensor := map (fmul c) a.
Definition add_scalar (a : tensor) (c : fval) : tensor := map (fun v => fadd v c) a.
Definition div_scalar (a : tensor) (c : fval) : tensor := map (fun v => fdiv v c) a.

Definition zeros_like (a : tensor) : tensor := map (fun _ => Real 0) a.

(** [torch.clamp(x, lo, hi)] is [min(max(x, lo), hi)]; NaN stays NaN. *)
Definition clamp_val (lo hi : Q) (v : fval) : fval :=
  match v with
  | Real x => Real (Qmin (Qmax x lo) hi)
  | NaN => NaN
  end.

Definition clamp (x : tensor) (lo hi : Q) : tensor := map (clamp_val lo hi) x.

(** An element lies in [[lo, hi]]. *)
Definition in_range (lo hi : Q) (v : fval) : Prop :=
  match v with Real x => lo <= x /\ x <= hi | NaN => False end.

(** [torch.isclose] with the default tolerances. *)
Definition rtol : Q := 1 # 100000.
Definition atol : Q := 1 # 100000000.

Definition isclose (a b : fval) : bool :=
  feqb a b
  || (isfinite (fabs (fsub a b))
      && fleb (fabs (fsub a b)) (fadd (Real atol) (fabs (fmul (Real rtol) b)))).

Fixpoint all2 (f : fval -> fval -> bool) (a b : tensor) : bool :=
  match a, b with
  | [], [] => true
  | x :: a', y :: b' => f x y && all2 f a' b'
  | _, _ => false
  end.

(** [torch.allclose(a, b)]: every element close.  The script only compares
    a parameter with its own clone, so both have one shape; tensors of
    different lengths are reported as not close. *)
Definition allclose (a b : tensor) : bool := all2 isclose a b.

(** [torch.equal(a, b)]: same size and every element [==]. *)
Definition equal (a b : tensor) : bool := all2 feqb a b.

End torch.
Import torch.

(** * diffusion_solver: the noise schedule *)
Module diffusion_solver.

Inductive error : Type :=
| UnsupportedScheduleKind (kind : string).

(** [num] evenly spaced values from [start] to [stop], both included. *)
Definition linspace (start stop : Q) (num : nat) : list Q :=
  map (fun i : nat =>
         start + inject_Z (Z.of_nat i)
                 * ((stop - start) / inject_Z (Z.of_nat (num - 1))))
      (seq 0 num).

(** Modelled from the spec: [get_beta_schedule] lives in
    [diffusion_solver.py], which is not part of the sources.  The spec asks
    for [T] scalars interpolated linearly between [beta_start] and
    [beta_end] and an [UnsupportedScheduleKind] error for any other policy
    name. *)
Definition get_beta_schedule (beta_schedule : string)
    (beta_start beta_end : Q) (num_diffusion_timesteps : nat)
  : error + list Q :=
  if String.eqb beta_schedule "linear"
  then inr (linspace beta_start beta_end num_diffusion_timesteps)
  else inl (UnsupportedScheduleKind beta_schedule).

Fixpoint cumprod_from (acc : Q) (l : list Q) : list Q :=
  match l with
  | [] => []
  | a :: l' => (acc * a) :: cumprod_from (acc * a) l'
  end.

Definition cumprod (l : list Q) : list Q := cumprod_from 1 l.

(** Modelled from the spec: [alpha[t] = 1 - beta[t]] and
    [alpha_bar[t]] is the product of [alpha[s]] over [s <= t]. *)
Definition alphas (betas : list Q) : list Q := map (fun b => 1 - b) betas.
Definition alphas_cumprod (betas : list Q) : list Q := cumprod (alphas betas).


(** Every entry lies strictly between 0 and 1. *)
Definition unit_open (l : list Q) : Prop := Forall (fun a => 0 < a /\ a < 1) l.

End diffusion_solver.

(** ** diffusion_solver: the decomposed reverse transition *)
Module diffusion_sampler.
Section ReverseSample.
Context {Denoiser Rng : Type}.

(** The noise prediction of the frozen network at [(x_t, t)]. *)
Variable model : Denoiser -> tensor -> Z -> tensor.
(** Posterior mean and standard deviation read off the schedule; the
    spec names them without giving their formulas. *)
Variable posterior_mean : list Q -> Z -> tensor -> tensor -> tensor.
Variable posterior_std : list Q -> Z -> fval.
(** A standard-normal sample of the shape of its argument. *)
Variable randn_like : tensor -> Rng -> tensor * Rng.

(** Modelled from the spec: [reverse_sample_typeII] is a method of
    [diffusion_solver.DiffusionSampler], which is not part of the
    sources.  It returns the mean and the standard deviation of the
    posterior of [x_{t-1}] given [x_t] together with one fresh noise
    sample, uncombined; at [t = 0] the standard deviation is 0. *)
Definition reverse_sample_typeII (betas : list Q) (x_t : tensor) (t : Z)
    (denoiser : Denoiser) (output_type : string) (rng : Rng)
  : (tensor * fval * tensor) * Rng :=
  let mean := posterior_mean betas t x_t (model denoiser x_t t) in
  let std := if (t =? 0)%Z then Real 0 else posterior_std betas t in
  let '(noise, rng') := randn_like x_t rng in
  ((mean, std, noise), rng').
End ReverseSample.
End diffusion_sampler.

(** * torch.optim.Adam with its default hyperparameters *)
Module Adam.

Record param_state : Type := {
  step : nat;
  exp_avg : tensor;
  exp_avg_sq : tensor
}.

Definition beta1 : Q := 9 # 10.
Definition beta2 : Q := 999 # 1000.
Definition eps : Q := 1 # 100000000.

Section Update.
(** The square root, which the rationals lack. *)
Variable sqrt : Q -> Q.

Definition fsqrt (v : fval) : fval :=
  match v with Real x => Real (sqrt x) | NaN => NaN end.

(** The update of one parameter tensor from its gradient. *)
Definition update (lr : Q) (st : param_state) (param grad : tensor)
  : tensor * param_state :=
  let step_t := S (step st) in
  let m := tadd (exp_avg st)
                (scale (Real (1 - beta1)) (tsub grad (exp_avg st))) in
  let v := tadd (scale (Real beta2) (exp_avg_sq st))
                (scale (Real (1 - beta2)) (tmul grad grad)) in
  let bias_correction1 := 1 - beta1 ^ Z.of_nat step_t in
  let bias_correction2 := 1 - beta2 ^ Z.of_nat step_t in
  let step_size := lr / bias_correction1 in
  let bias_correction2_sqrt := sqrt bias_correction2 in
  let denom := add_scalar
                 (div_scalar (map fsqrt v) (Real bias_correction2_sqrt))
                 (Real eps) in
  (tadd param (scale (Real (- step_size)) (tdiv m denom)),
   {| step := step_t; exp_avg := m; exp_avg_sq := v |}).

Definition fresh (param : tensor) : param_state :=
  {| step := 0; exp_avg := zeros_like param; exp_avg_sq := zeros_like param |}.

(** [optimizer.step()]: every parameter that has a gradient is updated
    in place, the others are skipped. *)
Fixpoint step_all (lr : Q) (grads : gmap string tensor)
    (params : list (string * tensor)) (st : gmap string param_state)
  : list (string * tensor) * gmap string param_state :=
  match params with
  | [] => ([], st)
  | (name, p) :: rest =>
      match grads !! name with
      | None =>
          let '(rest', st') := step_all lr grads rest st in
          ((name, p) :: rest', st')
      | Some g =>
          let '(p', s1) := update lr (default (fresh p) (st !! name)) p g in
          let '(rest', st') := step_all lr grads rest (<[name := s1]> st) in
          ((name, p') :: rest', st')
      end
  end.
End Update.
End Adam.

(** * The training script *)
Module trainer.

(** What the collaborators outside the script contribute. *)
Record env : Type := {
  Denoiser : Type;
  Rng : Type;
  Logits : Type;
  Labels : Type;
  Pred : Type;
  (** [torch.randn((batch_size, 1, 256, 256))] on the global generator *)
  torch_randn : Rng -> tensor * Rng;
  (** the three operations of [diffusion_solver.DiffusionSampler] *)
  reverse_iterate : tensor -> Z -> Denoiser -> Rng -> tensor * Rng;
  reverse_skip : tensor -> Z -> Denoiser -> tensor;
  reverse_sample_typeII :
    tensor -> Z -> Denoiser -> string -> Rng -> (tensor * fval * tensor) * Rng;
  (** [arch.res_Unet] applied with the given named parameters *)
  seg_forward : list (string * tensor) -> tensor -> Logits;
  (** [torch.argmax(softmax(pred), dim=1)] *)
  argmax_softmax : Logits -> Pred;
  CE_loss : Logits -> Labels -> fval;
  DSC_loss : Pred -> Labels -> fval;
  (** autograd: the gradient of a scalar with respect to the named
      parameters it depends on, and with respect to an input leaf *)
  grad_params : (list (string * tensor) -> fval) -> list (string * tensor)
                -> gmap string tensor;
  grad_input : (tensor -> fval) -> tensor -> tensor;
  sqrt : Q -> Q
}.

Record config : Type := {
  T : Z;
  strength : Q;
  lr : Q;
  n_epoch : nat
}.

(** The constants of the script. *)
Definition script_config : config :=
  {| T := 300; strength := 850; lr := 1 # 10000; n_epoch := 10 |}.

Inductive exn : Type :=
| AssertionError (msg : string)
| KeyError (key : string).

Section Script.
Context {E : env}.

(** The calls the loop makes, in program order, with their inputs. *)
Inductive call : Type :=
| Randn (out : tensor)
| ReverseIterate (x : tensor) (t : Z) (model : Denoiser E)
| ReverseSkip (x : tensor) (t : Z) (model : Denoiser E)
| ReverseSampleTypeII (x : tensor) (t : Z) (model : Denoiser E)
| Clamp (x : tensor) (lo hi : Q)
| SegModel (x : tensor).

Record state : Type := {
  dpm_model : Denoiser E;
  seg_model : list (string * tensor);   (* named_parameters() *)
  seg_grad : gmap string tensor;        (* .grad of each parameter *)
  optimizer : gmap string Adam.param_state;
  x_t : tensor;
  generator : Rng E;
  calls : list call                     (* ghost: the call trace *)
}.

Definition set_seg_model (v : list (string * tensor)) (s : state) : state :=
  {| dpm_model := dpm_model s; seg_model := v; seg_grad := seg_grad s;
     optimizer := optimizer s; x_t := x_t s; generator := generator s;
     calls := calls s |}.
Definition set_seg_grad (v : gmap string tensor) (s : state) : state :=
  {| dpm_model := dpm_model s; seg_model := seg_model s; seg_grad := v;
     optimizer := optimizer s; x_t := x_t s; generator := generator s;
     calls := calls s |}.
Definition set_optimizer (v : gmap string Adam.param_state) (s : state) : state :=
  {| dpm_model := dpm_model s; seg_model := seg_model s; seg_grad := seg_grad s;
     optimizer := v; x_t := x_t s; generator := generator s;
     calls := calls s |}.
Definition set_x_t (v : tensor) (s : state) : state :=
  {| dpm_model := dpm_model s; seg_model := seg_model s; seg_grad := seg_grad s;
     optimizer := optimizer s; x_t := v; generator := generator s;
     calls := calls s |}.
Definition set_generator (v : Rng E) (s : state) : state :=
  {| dpm_model := dpm_model s; seg_model := seg_model s; seg_grad := seg_grad s;
     optimizer := optimizer s; x_t := x_t s; generator := v;
     calls := calls s |}.
Definition record (c : call) (s : state) : state :=
  {| dpm_model := dpm_model s; seg_model := seg_model s; seg_grad := seg_grad s;
     optimizer := optimizer s; x_t := x_t s; generator := generator s;
     calls := calls s ++ [c] |}.

(** State and exceptions: a raise keeps the mutations made so far. *)
Definition M (A : Type) : Type := state -> (exn + A) * state.

Definition ret {A} (a : A) : M A := fun s => (inr a, s).
Definition bind {A B} (m : M A) (k : A -> M B) : M B :=
  fun s => match m s with
           | (inr a, s') => k a s'
           | (inl e, s') => (inl e, s')
           end.
Definition raise {A} (e : exn) : M A := fun s => (inl e, s).
Definition get : M state := fun s => (inr s, s).
Definition modify (f : state -> state) : M unit := fun s => (inr tt, f s).

Fixpoint for_each {A} (l : list A) (body : A -> M unit) : M unit :=
  match l with
  | [] => ret tt
  | a :: l' => bind (body a) (fun _ => for_each l' body)
  end.
End Script.

Notation "x <- m ;; k" := (bind m (fun x => k))
  (at level 20, m at level 99, k at level 200, only parsing).
Notation "m ;;; k" := (bind m (fun _ => k))
  (at level 20, k at level 200, only parsing).

Section Loop.
Context {E : env}.
Variable cfg : config.
(** [initial_state]: the clone of the loaded segmentation parameters. *)
Variable initial_state : gmap string tensor.

(** [range(start, stop)] *)
Definition range (start stop : Z) : list Z :=
  map (fun i : nat => (start + Z.of_nat i)%Z) (seq 0 (Z.to_nat (stop - start))).

Definition call_clamp (x : tensor) (lo hi : Q) : M (E:=E) tensor :=
  modify (record (Clamp x lo hi)) ;;; ret (clamp x lo hi).

(** [optimizer.zero_grad()]: every [.grad] becomes [None] (zero tensors,
    the older behaviour, would accumulate to the same values). *)
Definition zero_grad : M (E:=E) unit := modify (set_seg_grad ∅).

(** [CE_loss(pred, y) + DSC_loss(pred_y, y)] for the prediction of the
    network with parameters [params] on the image [x]. *)
Definition loss_of (y : Labels E) (params : list (string * tensor))
    (x : tensor) : fval :=
  let pred := seg_forward E params x in
  let pred_y := argmax_softmax E pred in
  fadd (CE_loss E pred y) (DSC_loss E pred_y y).

(** A gradient is stored when [.grad] is [None] and added otherwise. *)
Definition accumulate (old new : gmap string tensor) : gmap string tensor :=
  union_with (fun a b => Some (tadd a b)) old new.

(** [loss.backward()]: only the segmentation parameters require
    gradients, the diffusion model was frozen at load time. *)
Definition backward (loss : list (string * tensor) -> fval) : M (E:=E) unit :=
  modify (fun s =>
    set_seg_grad (accumulate (seg_grad s) (grad_params E loss (seg_model s))) s).

(** [optimizer.step()] on [seg_model.parameters()]. *)
Definition optimizer_step : M (E:=E) unit :=
  modify (fun s =>
    let '(params, st) :=
      Adam.step_all (sqrt E) (lr cfg) (seg_grad s) (seg_model s) (optimizer s) in
    set_optimizer st (set_seg_model params s)).

(** The update checker that closes every timestep. *)
Fixpoint update_checker (params : list (string * tensor)) : M (E:=E) unit :=
  match params with
  | [] => ret tt
  | (name, param) :: rest =>
      match initial_state !! name with
      | None => raise (KeyError name)
      | Some init =>
          if negb (allclose param init)
          then update_checker rest
          else raise (AssertionError
                        ("Parameter " ++ name ++ " was not updated!"))
      end
  end.

(** The body of [for j in range(0, T)[::-1]]. *)
Definition guided_step (y : Labels E) (j : Z) : M (E:=E) unit :=
  zero_grad ;;;
  let t_tensor := j in
  (* compute x_{0|t} for each timestep t *)
  s <- get ;;
  modify (record (ReverseSkip (x_t s) t_tensor (dpm_model s))) ;;;
  x_0_t <- call_clamp (reverse_skip E (x_t s) t_tensor (dpm_model s)) 0 1 ;;
  (* conduct segmentation, update the segmentation network parameters *)
  modify (record (SegModel x_0_t)) ;;;
  backward (fun params => loss_of y params x_0_t) ;;;
  optimizer_step ;;;
  (* compute gradient with regard to x_{0|t}: the forward process again *)
  let x_in := x_0_t in
  modify (record (SegModel x_in)) ;;;
  s <- get ;;
  let gradient :=
    grad_input E (fun x => fmul (Real (- strength cfg)) (loss_of y (seg_model s) x))
               x_in in
  (* update x_t with x_{t-1} *)
  modify (record (ReverseSampleTypeII (x_t s) t_tensor (dpm_model s))) ;;;
  let '((mean, std, epsilon), g) :=
    reverse_sample_typeII E (x_t s) t_tensor (dpm_model s) "gaussian"
                          (generator s) in
  modify (set_generator g) ;;;
  let mean_shift := tadd mean gradient in
  modify (set_x_t (tadd mean_shift (scale std epsilon))) ;;;
  (* update checker *)
  s <- get ;;
  update_checker (seg_model s).

(** The body of [for step, (x, y) in enumerate(train_data)]; it returns
    [(x_0_uncondition, x_0_condition)], the two images of the plot. *)
Definition trajectory (y : Labels E) : M (E:=E) (tensor * tensor) :=
  s <- get ;;
  let '(noise, g) := torch_randn E (generator s) in
  modify (record (Randn noise)) ;;;
  modify (set_generator g) ;;;
  modify (set_x_t noise) ;;;
  (* unconditional diffusion *)
  s <- get ;;
  modify (record (ReverseIterate (x_t s) (T cfg - 1) (dpm_model s))) ;;;
  let '(x_0, g) :=
    reverse_iterate E (x_t s) (T cfg - 1)%Z (dpm_model s) (generator s) in
  modify (set_generator g) ;;;
  x_0_uncondition <- call_clamp x_0 (-1) 1 ;;
  (* classifier-guided conditional diffusion *)
  for_each (reverse (range 0 (T cfg))) (guided_step y) ;;;
  (* final output of conditional diffusion *)
  s <- get ;;
  x_0_condition <- call_clamp (x_t s) (-1) 1 ;;
  ret (x_0_uncondition, x_0_condition).

(** The two outer loops. *)
Definition train (train_data : list (tensor * Labels E)) : M (E:=E) unit :=
  for_each (seq 0 (n_epoch cfg)) (fun epoch =>
    for_each train_data (fun xy => trajectory (snd xy) ;;; ret tt)).
End Loop.

(** The phases of one trajectory, as the sampler calls reveal them. *)
Inductive phase : Type :=
| UNCONDITIONAL_PASS
| GUIDED_STEP (t : Z).

(** ** Reading a guided step off the state it starts in *)
Section Observations.
Context {E : env}.
Variable cfg : config.

(** The clamped clean-image estimate [x_0_t] of timestep [j]. *)
Definition x_0_hat (s : state (E:=E)) (j : Z) : tensor :=
  clamp (reverse_skip E (x_t s) j (dpm_model s)) 0 1.


Definition loss_gradients (y : Labels E) (j : Z) (s : state (E:=E))
  : gmap string tensor :=
  grad_params E (fun params => loss_of y params (x_0_hat s j)) (seg_model s).

(** The guidance gradient for given segmentation parameters. *)
Definition guidance_gradient (y : Labels E) (j : Z)
    (params : list (string * tensor)) (s : state (E:=E)) : tensor :=
  grad_input E (fun x => fmul (Real (- strength cfg)) (loss_of y params x))
             (x_0_hat s j).

(** The calls of one guided step that starts with the image [x]. *)
Definition step_calls (d : Denoiser E) (x : tensor) (j : Z) : list (call (E:=E)) :=
  [ReverseSkip x j d;
   Clamp (reverse_skip E x j d) 0 1;
   SegModel (clamp (reverse_skip E x j d) 0 1);
   SegModel (clamp (reverse_skip E x j d) 0 1);
   ReverseSampleTypeII x j d].

(** The state on which the update checker of timestep [j] runs. *)
Definition advanced (y : Labels E) (j : Z) (s : state (E:=E)) : state (E:=E) :=
  let grads := loss_gradients y j s in
  let '(params, st) :=
    Adam.step_all (sqrt E) (lr cfg) grads (seg_model s) (optimizer s) in
  let '((mean, std, epsilon), g) :=
    reverse_sample_typeII E (x_t s) j (dpm_model s) "gaussian" (generator s) in
  {| dpm_model := dpm_model s;
     seg_model := params;
     seg_grad := grads;
     optimizer := st;
     x_t := tadd (tadd mean (guidance_gradient y j params s)) (scale std epsilon);
     generator := g;
     calls := calls s ++ step_calls (dpm_model s) (x_t s) j |}.

(** The state in which the guided loop starts: the noise is drawn and
    the unconditional pass is done. *)
Definition entering (s : state (E:=E)) : state (E:=E) :=
  let '(noise, g) := torch_randn E (generator s) in
  let '(x_0, g') := reverse_iterate E noise (T cfg - 1) (dpm_model s) g in
  {| dpm_model := dpm_model s;
     seg_model := seg_model s;
     seg_grad := seg_grad s;
     optimizer := optimizer s;
     x_t := noise;
     generator := g';
     calls := calls s ++ [Randn noise;
                          ReverseIterate noise (T cfg - 1) (dpm_model s);
                          Clamp x_0 (-1) 1] |}.

(** The output of the unconditional pass, before it is clamped. *)
Definition unconditional_raw (s : state (E:=E)) : tensor :=
  let '(noise, g) := torch_randn E (generator s) in
  fst (reverse_iterate E noise (T cfg - 1) (dpm_model s) g).

(** Projections of the call trace. *)
Definition phases (c : list (call (E:=E))) : list phase :=
  omap (fun c => match c with
                 | ReverseIterate _ _ _ => Some UNCONDITIONAL_PASS
                 | ReverseSampleTypeII _ t _ => Some (GUIDED_STEP t)
                 | _ => None
                 end) c.

Definition clamp_bounds (c : list (call (E:=E))) : list (Q * Q) :=
  omap (fun c => match c with Clamp _ lo hi => Some (lo, hi) | _ => None end) c.

Definition seg_inputs (c : list (call (E:=E))) : list tensor :=
  omap (fun c => match c with SegModel x => Some x | _ => None end) c.

Definition noise_draws (c : list (call (E:=E))) : list tensor :=
  omap (fun c => match c with Randn x => Some x | _ => None end) c.

(** The diffusion model a sampler call was handed, if it is one. *)
Definition call_model (c : call (E:=E)) : option (Denoiser E) :=
  match c with
  | ReverseIterate _ _ d | ReverseSkip _ _ d | ReverseSampleTypeII _ _ d => Some d
  | _ => None
  end.

(** [s'] continues [s]: same diffusion model, and every sampler call
    made in between was handed that model. *)
Definition continues (s s' : state (E:=E)) : Prop :=
  dpm_model s' = dpm_model s
  /\ exists new, calls s' = calls s ++ new
     /\ Forall (fun c => forall d, call_model c = Some d -> d = dpm_model s) new.

(** Every element is NaN or within the bounds. *)
Definition clamped_to (lo hi : Q) (x : tensor) : Prop :=
  Forall (fun v => v = NaN \/ in_range lo hi v) x.

(** Every parameter is paired with a reference value it is not
    [allclose] to, hence not [equal] to. *)
Definition all_updated (reference : gmap string tensor)
    (params : list (string * tensor)) : Prop :=
  Forall (fun kv => exists r, reference !! fst kv = Some r
                    /\ allclose (snd kv) r = false
                    /\ equal (snd kv) r = false) params.

(** The names of the parameters all have an entry in [reference]. *)
Definition named_in (reference : gmap string tensor) (s : state (E:=E)) : Prop :=
  forall name, name ∈ (seg_model s).*1 -> is_Some (reference !! name).

(** Every parameter differs from the value it had in [before]. *)
Definition all_differ (before after : list (string * tensor)) : Prop :=
  Forall2 (fun b a => fst a = fst b /\ equal (snd a) (snd b) = false)
          before after.
End Observations.

(** [{name: param.clone() for name, param in seg_model.named_parameters()}] *)
Definition dict_of (items : list (string * tensor)) : gmap string tensor :=
  foldl (fun m kv => <[fst kv := snd kv]> m) ∅ items.

(** The two loops of lines 74-134, run from the point where both
    checkpoints are loaded.  What the script does after a trajectory and
    after an epoch, lines 135-151, is not part of it: [driver.script]
    below is the script with those lines. *)
Definition main {E : env} (cfg : config) (train_data : list (tensor * Labels E))
    (loaded : state (E:=E)) : (exn + unit) * state (E:=E) :=
  train cfg (dict_of (seg_model loaded)) train_data loaded.

End trainer.

(** * A small concrete environment

    One scalar weight, one pixel: enough to run the loop.  The network is
    [w * (2 * x - 1)], the cross-entropy stand-in is linear in the logit,
    the Dice stand-in is the plain ratio (0/0 on an empty prediction and
    an empty label), and autograd is a unit finite difference, exact on
    what is affine in each coordinate.

    The difference is taken of the whole loss.  Autograd does not
    differentiate the Dice term, whose input comes from [argmax]: the two
    agree where that term is finite, which it is for the label 1 of every
    run below, and they differ where it is NaN and the cross-entropy
    term is not. *)
Module toy.
Import trainer.

Definition head (x : tensor) : fval := default NaN (x !! 0%nat).

Definition weight (params : list (string * tensor)) : fval :=
  match params with
  | (_, p) :: _ => head p
  | [] => NaN
  end.

Definition forward (params : list (string * tensor)) (x : tensor) : fval :=
  fmul (weight params) (fsub (fmul (Real 2) (head x)) (Real 1)).

Definition cross_entropy (pred : fval) (y : Z) : fval :=
  fmul pred (Real (inject_Z (2 * y - 1))).

Definition dice (pred_y y : Z) : fval :=
  fsub (Real 1)
       (fdiv (Real (inject_Z (2 * pred_y * y))) (Real (inject_Z (pred_y + y)))).

(** The finite difference of [f] at [x] along coordinate [i]. *)
Definition bump (x : tensor) (i : nat) : tensor :=
  alter (fun v => fadd v (Real 1)) i x.

Definition diff_input (f : tensor -> fval) (x : tensor) : tensor :=
  map (fun i => fsub (f (bump x i)) (f x)) (seq 0 (length x)).

Definition bump_param (params : list (string * tensor)) (k i : nat)
  : list (string * tensor) :=
  alter (fun kv => (fst kv, bump (snd kv) i)) k params.

Definition diff_params (f : list (string * tensor) -> fval)
    (params : list (string * tensor)) : gmap string tensor :=
  list_to_map
    (imap (fun k kv =>
             (fst kv,
              map (fun i => fsub (f (bump_param params k i)) (f params))
                  (seq 0 (length (snd kv)))))
          params).

(** The square root rounded down to six decimals. *)
Definition sqrt6 (q : Q) : Q :=
  inject_Z (Z.sqrt (Qnum q * 1000000000000 / Zpos (Qden q))) / 1000000.

(** The generator is the list of the samples it will hand out. *)
Definition draw (g : list tensor) : tensor * list tensor :=
  match g with
  | [] => ([Real 0], [])
  | n :: g' => (n, g')
  end.

Definition toy_env : env := {|
  Denoiser := tensor;
  Rng := list tensor;
  Logits := fval;
  Labels := Z;
  Pred := Z;
  torch_randn := draw;
  reverse_iterate := fun x t d g => (scale (Real 2) x, g);
  reverse_skip := fun x t d => x;
  reverse_sample_typeII :=
    diffusion_sampler.reverse_sample_typeII
      (fun d x t => d) (fun betas t x e => x) (fun betas t => Real 1)
      (fun x g => draw g) [];
  seg_forward := forward;
  argmax_softmax := fun _ => 0%Z;
  CE_loss := cross_entropy;
  DSC_loss := dice;
  grad_params := diff_params;
  grad_input := diff_input;
  sqrt := sqrt6
|}.

Definition toy_config (steps : Z) : config :=
  {| T := steps; strength := 850; lr := 1 # 10000; n_epoch := 1 |}.

(** The loaded checkpoints: one weight [w = 0], and the samples the
    generator will produce. *)
Definition loaded (g : list tensor) : state (E:=toy_env) :=
  {| dpm_model := ([Real 0] : Denoiser toy_env);
     seg_model := [("w"%string, [Real 0])];
     seg_grad := ∅;
     optimizer := ∅;
     x_t := [];
     generator := (g : Rng toy_env);
     calls := [] |}.

Definition w0 : gmap string tensor := dict_of (seg_model (loaded [])).

(** The loaded state once the trajectory holds the image [x]. *)
Definition at_image (x : tensor) (g : list tensor) : state (E:=toy_env) :=
  set_x_t x (loaded g).

(** The samples of two examples with one guided step each: the initial
    noise and the noise of the reverse transition, twice. *)
Definition two_examples : list tensor :=
  [[Real 1]; [Real 3]; [Real (1 # 20)]; [Real 5]].

(** The samples of one example with two guided steps. *)
Definition two_steps : list tensor := [[Real 1]; [Real 3]; [Real 5]].

End toy.

(** * The rest of the script: plots and checkpoints *)
Module driver.
Import trainer.

Definition save_path : string :=
  "/home/dewei/Medical_Semantic_Diffusion/result/result_diffusion/".
Definition ckpt_path : string := "/home/dewei/Medical_Semantic_Diffusion/ckpt/".

(** What the script can end with: an exception of the loop, or the
    [NameError] of reading [pred_y] when no guided step has bound it. *)
Inductive raised : Type :=
| Exn (e : exn)
| NameError (name : string).

(** What the script leaves behind: the files written by [torch.save], by
    path, and the plots handed to [utils.image_saver] in order, each with
    its name and the two diffusion images it shows (the other two panels,
    the label and the last prediction, are not kept). *)
Record disk : Type := {
  checkpoints : gmap string (list (string * tensor));
  plots : list (string * (tensor * tensor))
}.

(** Modelled from the spec: [utils.image_saver] is the visualization
    collaborator outside the script; the call is recorded. *)
Definition image_saver (im_plot : tensor * tensor) (save_path name : string)
    (d : disk) : disk :=
  {| checkpoints := checkpoints d; plots := plots d ++ [(name, im_plot)] |}.

(** [torch.save(obj, path)]: the file at [path] holds [obj], replacing
    what it held. *)
Definition torch_save (state_dict : list (string * tensor)) (path : string)
    (d : disk) : disk :=
  {| checkpoints := <[path := state_dict]> (checkpoints d); plots := plots d |}.

(** The sampler calls of the guided steps, by timestep. *)
Definition timesteps {E : env} (c : list (call (E:=E))) : list Z :=
  omap (fun c => match c with ReverseSampleTypeII _ t _ => Some t | _ => None end) c.

Section Driver.
Context {E : env}.
Variable cfg : config.
Variable initial_state : gmap string tensor.

(** [for step, (x, y) in enumerate(train_data)], from index [step] on.
    After the trajectory the panels of the plot are prepared; the first
    name read that only a guided step binds is [pred_y].  The conversions
    of [utils] and [numpy] between that point and [image_saver] are taken
    to return, on the non-empty batches that the loader yields. *)
Fixpoint examples (train_data : list (tensor * Labels E)) (step : nat)
    (s : state (E:=E)) (d : disk) : (raised + unit) * state (E:=E) * disk :=
  match train_data with
  | [] => (inr tt, s, d)
  | (x, y) :: rest =>
      match trajectory cfg initial_state y s with
      | (inl e, s') => (inl (Exn e), s', d)
      | (inr im, s') =>
          (* im_pred_y = pred_y[0]: bound by the last guided step *)
          if (T cfg <=? 0)%Z then (inl (NameError "pred_y"), s', d)
          else
            let name := ("st" ++ pretty step)%string in
            examples rest (S step) s' (image_saver im save_path name d)
      end
  end.

(** [for epoch in range(n_epoch)], the checkpoint saved after each epoch. *)
Fixpoint epochs (n : nat) (train_data : list (tensor * Labels E))
    (s : state (E:=E)) (d : disk) : (raised + unit) * state (E:=E) * disk :=
  match n with
  | O => (inr tt, s, d)
  | S n' =>
      match examples train_data 0 s d with
      | (inl e, s', d') => (inl e, s', d')
      | (inr _, s', d') =>
          let name := "pretrained_seg_octa500.pt"%string in
          epochs n' train_data s'
                 (torch_save (seg_model s') (ckpt_path ++ name) d')
      end
  end.
End Driver.

(** One epoch of [train]. *)
Definition inner {E : env} (cfg : config) (initial_state : gmap string tensor)
    (data : list (tensor * Labels E)) : M (E:=E) unit :=
  for_each data (fun xy => bind (trajectory cfg initial_state (snd xy))
                                (fun _ => ret tt)).

(** The script with its files, from the loaded checkpoints on. *)
Definition script {E : env} (cfg : config) (train_data : list (tensor * Labels E))
    (loaded : state (E:=E)) (d : disk) : (raised + unit) * state (E:=E) * disk :=
  epochs cfg (dict_of (seg_model loaded)) (n_epoch cfg) train_data loaded d.

Definition lift (r : exn + unit) : raised + unit :=
  match r with inl e => inl (Exn e) | inr u => inr u end.

Definition plot_names (n : nat) : list string :=
  (fun step => ("st" ++ pretty step)%string) <$> seq 0 n.
End driver.

Module toy_run.
Import trainer toy driver.

Definition empty_disk : disk := {| checkpoints := ∅; plots := [] |}.

(** Two epochs of one guided step. *)
Definition two_epochs : config :=
  {| T := 1; strength := 850; lr := 1 # 10000; n_epoch := 2 |}.

(** The toy network with a second parameter that it never reads: autograd
    leaves the [.grad] of such a parameter at [None]. *)
Definition unused_env : env := {|
  Denoiser := Denoiser toy_env;
  Rng := Rng toy_env;
  Logits := Logits toy_env;
  Labels := Labels toy_env;
  Pred := Pred toy_env;
  torch_randn := torch_randn toy_env;
  reverse_iterate := reverse_iterate toy_env;
  reverse_skip := reverse_skip toy_env;
  reverse_sample_typeII := reverse_sample_typeII toy_env;
  seg_forward := seg_forward toy_env;
  argmax_softmax := argmax_softmax toy_env;
  CE_loss := CE_loss toy_env;
  DSC_loss := DSC_loss toy_env;
  grad_params := fun f params => delete "b"%string (diff_params f params);
  grad_input := grad_input toy_env;
  sqrt := sqrt toy_env
|}.

Definition with_unused (x : tensor) (g : list tensor) : state (E:=unused_env) :=
  {| dpm_model := ([Real 0] : Denoiser unused_env);
     seg_model := [("w"%string, [Real 0]); ("b"%string, [Real 0])];
     seg_grad := ∅;
     optimizer := ∅;
     x_t := x;
     generator := (g : Rng unused_env);
     calls := [] |}.

(** The samples of two examples with two guided steps each. *)
Definition four_steps : list tensor :=
  [[Real 1]; [Real 3]; [Real 5]; [Real (1 # 20)]; [Real 3]; [Real 5]].
End toy_run.

(** * modules.py: the networks at the level of tensor sizes

    A module is what its constructor builds, and its [forward] maps the
    sizes of its inputs to the size of its output, or to the exception
    that a layer raises on them. *)
Module nn.
Local Open Scope nat_scope.

Inductive exn : Type :=
| RuntimeError
| ValueError
| IndexError.

Definition result (A : Type) : Type := exn + A.

Definition and_then {A B} (r : result A) (k : A -> result B) : result B :=
  match r with inl e => inl e | inr a => k a end.

(** The size of a 4-d tensor: batch, channels, height, width. *)
Record size : Type := Size {
  batch : nat;
  channels : nat;
  height : nat;
  width : nat
}.

Inductive layer : Type :=
| Conv2d (in_channels out_channels kernel_size stride padding : nat)
| ConvTranspose2d (in_channels out_channels kernel_size stride padding : nat)
| InstanceNorm2d (num_features : nat)
| BatchNorm2d (num_features : nat)
| GELU
| LeakyReLU.

(** One spatial extent through a convolution: the padded input must hold
    the kernel. *)
Definition conv_out (h kernel_size stride padding : nat) : result nat :=
  if h + 2 * padding <? kernel_size then inl RuntimeError
  else inr ((h + 2 * padding - kernel_size) / stride + 1).

Definition conv_transpose_out (h kernel_size stride padding : nat) : result nat :=
  if h =? 0 then inl RuntimeError
  else inr ((h - 1) * stride + kernel_size - 2 * padding).

(** What a layer does to a size.  A convolution and a batch norm check the
    channels; an instance norm (without running statistics) refuses a
    single spatial element, a batch norm in training mode a single value
    per channel. *)
Definition layer_forward (l : layer) (x : size) : result size :=
  match l with
  | Conv2d cin cout k s p =>
      if negb (channels x =? cin) then inl RuntimeError
      else and_then (conv_out (height x) k s p) (fun h =>
           and_then (conv_out (width x) k s p) (fun w =>
           inr (Size (batch x) cout h w)))
  | ConvTranspose2d cin cout k s p =>
      if negb (channels x =? cin) then inl RuntimeError
      else and_then (conv_transpose_out (height x) k s p) (fun h =>
           and_then (conv_transpose_out (width x) k s p) (fun w =>
           inr (Size (batch x) cout h w)))
  | InstanceNorm2d _ =>
      if height x * width x =? 1 then inl ValueError else inr x
  | BatchNorm2d n =>
      if negb (channels x =? n) then inl RuntimeError
      else if batch x * (height x * width x) =? 1 then inl ValueError
      else inr x
  | GELU | LeakyReLU => inr x
  end.

(** [nn.Sequential] *)
Fixpoint Sequential (ls : list layer) (x : size) : result size :=
  match ls with
  | [] => inr x
  | l :: ls' => and_then (layer_forward l x) (Sequential ls')
  end.

(** [nn.Linear(in_features, out_features)] on a [batch x features] input. *)
Definition Linear (in_features out_features : nat) (x : nat * nat)
  : result (nat * nat) :=
  if negb (snd x =? in_features) then inl RuntimeError
  else inr (fst x, out_features).

(** [F.interpolate(x, size=(h, w), mode='nearest')] *)
Definition interpolate (x : size) (h w : nat) : result size :=
  if (height x =? 0) || (width x =? 0) || (h =? 0) || (w =? 0)
  then inl RuntimeError
  else inr (Size (batch x) (channels x) h w).

(** [x.view(x.size(0), -1)]: without a batch element the [-1] is
    ambiguous, a [RuntimeError]. *)
Definition view_rows (x : size) : result (nat * nat) :=
  if batch x =? 0 then inl RuntimeError
  else inr (batch x, channels x * height x * width x).

(** Broadcasting of one dimension, and of two 4-d sizes in an elementwise
    operation. *)
Definition broadcast_dim (a b : nat) : result nat :=
  if a =? b then inr a
  else if a =? 1 then inr b
  else if b =? 1 then inr a
  else inl RuntimeError.

Definition broadcast (x y : size) : result size :=
  and_then (broadcast_dim (batch x) (batch y)) (fun n =>
  and_then (broadcast_dim (channels x) (channels y)) (fun c =>
  and_then (broadcast_dim (height x) (height y)) (fun h =>
  and_then (broadcast_dim (width x) (width y)) (fun w =>
  inr (Size n c h w))))).

Definition broadcast2 (x y : nat * nat) : result (nat * nat) :=
  and_then (broadcast_dim (fst x) (fst y)) (fun n =>
  and_then (broadcast_dim (snd x) (snd y)) (fun f =>
  inr (n, f))).

(** [torch.cat([x, y], dim=1)] and [torch.cat([x, y], dim=0)] *)
Definition cat1 (x y : size) : result size :=
  if (batch x =? batch y) && (height x =? height y) && (width x =? width y)
  then inr (Size (batch x) (channels x + channels y) (height x) (width x))
  else inl RuntimeError.

Definition cat0 (x y : size) : result size :=
  if (channels x =? channels y) && (height x =? height y) && (width x =? width y)
  then inr (Size (batch x + batch y) (channels x) (height x) (width x))
  else inl RuntimeError.

End nn.

Module modules.
Import nn.
Local Open Scope nat_scope.

Module SPADE.
Record t : Type := {
  instance_norm : layer;
  embed_nch : nat;
  embedding : list layer;
  gamma : layer;
  beta : layer
}.

Definition init (seg_nch output_nch : nat) : t :=
  let embed_nch := 32 in
  {| instance_norm := InstanceNorm2d output_nch;
     embed_nch := embed_nch;
     embedding := [Conv2d seg_nch embed_nch 3 1 1; GELU];
     gamma := Conv2d embed_nch output_nch 3 1 1;
     beta := Conv2d embed_nch output_nch 3 1 1 |}.

Definition forward (self : t) (x segmap : size) : result size :=
  (* step 1: normalize the feature x *)
  and_then (layer_forward (instance_norm self) x) (fun x =>
  (* step 2: embed and produce scaling and bias from segmentation map *)
  and_then (interpolate segmap (height x) (width x)) (fun segmap =>
  and_then (Sequential (embedding self) segmap) (fun seg_embed =>
  and_then (layer_forward (gamma self) seg_embed) (fun gamma =>
  and_then (layer_forward (beta self) seg_embed) (fun beta =>
  (* step 3: output = x * (1 + gamma) + beta *)
  and_then (broadcast x gamma) (fun scaled =>
  broadcast scaled beta)))))).
End SPADE.

Module SPADE_residual_block.
Record t : Type := {
  conv_1 : layer; SPADE_norm_1 : SPADE.t;
  conv_2 : layer; SPADE_norm_2 : SPADE.t;
  conv_3 : layer; SPADE_norm_3 : SPADE.t;
  activate : layer
}.

Definition init (seg_nch input_nch output_nch : nat) : t :=
  let hidden_nch := Nat.min input_nch output_nch in
  {| conv_1 := Conv2d input_nch hidden_nch 3 1 1;
     SPADE_norm_1 := SPADE.init seg_nch input_nch;
     conv_2 := Conv2d hidden_nch output_nch 3 1 1;
     SPADE_norm_2 := SPADE.init seg_nch hidden_nch;
     conv_3 := Conv2d input_nch output_nch 3 1 1;
     SPADE_norm_3 := SPADE.init seg_nch input_nch;
     activate := GELU |}.

Definition forward (self : t) (x segmap : size) : result size :=
  and_then (SPADE.forward (SPADE_norm_1 self) x segmap) (fun n1 =>
  and_then (layer_forward (activate self) n1) (fun a1 =>
  and_then (layer_forward (conv_1 self) a1) (fun main_x =>
  and_then (SPADE.forward (SPADE_norm_2 self) main_x segmap) (fun n2 =>
  and_then (layer_forward (activate self) n2) (fun a2 =>
  and_then (layer_forward (conv_2 self) a2) (fun main_x =>
  and_then (SPADE.forward (SPADE_norm_3 self) x segmap) (fun n3 =>
  and_then (layer_forward (activate self) n3) (fun a3 =>
  and_then (layer_forward (conv_3 self) a3) (fun side_x =>
  broadcast main_x side_x))))))))).
End SPADE_residual_block.

Module residual_block.
Record t : Type := {
  conv_1 : layer; norm_1 : layer;
  conv_2 : layer; norm_2 : layer;
  conv_3 : layer; norm_3 : layer;
  activate : layer
}.

Definition init (input_nch output_nch : nat) : t :=
  let hidden_nch := Nat.min input_nch output_nch in
  {| conv_1 := Conv2d input_nch hidden_nch 3 1 1;
     norm_1 := InstanceNorm2d input_nch;
     conv_2 := Conv2d hidden_nch output_nch 3 1 1;
     norm_2 := InstanceNorm2d hidden_nch;
     conv_3 := Conv2d input_nch output_nch 3 1 1;
     norm_3 := InstanceNorm2d input_nch;
     activate := GELU |}.

Definition forward (self : t) (x : size) : result size :=
  and_then (Sequential [norm_1 self; activate self; conv_1 self] x) (fun main_x =>
  and_then (Sequential [norm_2 self; activate self; conv_2 self] main_x) (fun main_x =>
  and_then (Sequential [norm_3 self; activate self; conv_3 self] x) (fun side_x =>
  broadcast main_x side_x))).
End residual_block.

Definition ConvBlock (input_nch output_nch : nat) : list layer :=
  [Conv2d input_nch output_nch 3 1 1; InstanceNorm2d output_nch; GELU].

Definition DownSample (input_nch output_nch : nat) : list layer :=
  [Conv2d input_nch output_nch 4 2 1; InstanceNorm2d output_nch; GELU].

Definition UpSample (input_nch output_nch : nat) : list layer :=
  [ConvTranspose2d input_nch output_nch 4 2 1; InstanceNorm2d output_nch; GELU].

Module SPADE_Generator.
Record t : Type := {
  SPADE_block_0 : SPADE_residual_block.t; upsample_0 : list layer;
  SPADE_block_1 : SPADE_residual_block.t; upsample_1 : list layer;
  SPADE_block_2 : SPADE_residual_block.t; upsample_2 : list layer;
  SPADE_block_3 : SPADE_residual_block.t; upsample_3 : list layer;
  SPADE_block_4 : SPADE_residual_block.t
}.

(** The hidden channels are hard coded: 16, 8, 4, 2. *)
Definition init (output_nch : nat) : t :=
  {| SPADE_block_0 := SPADE_residual_block.init 1 1 16;
     upsample_0 := UpSample 16 16;
     SPADE_block_1 := SPADE_residual_block.init 1 16 8;
     upsample_1 := UpSample 8 8;
     SPADE_block_2 := SPADE_residual_block.init 1 8 4;
     upsample_2 := UpSample 4 4;
     SPADE_block_3 := SPADE_residual_block.init 1 4 2;
     upsample_3 := UpSample 2 2;
     SPADE_block_4 := SPADE_residual_block.init 1 2 output_nch |}.

Definition forward (self : t) (x y : size) : result size :=
  and_then (SPADE_residual_block.forward (SPADE_block_0 self) x y) (fun x =>
  and_then (Sequential (upsample_0 self) x) (fun x =>
  and_then (SPADE_residual_block.forward (SPADE_block_1 self) x y) (fun x =>
  and_then (Sequential (upsample_1 self) x) (fun x =>
  and_then (SPADE_residual_block.forward (SPADE_block_2 self) x y) (fun x =>
  and_then (Sequential (upsample_2 self) x) (fun x =>
  and_then (SPADE_residual_block.forward (SPADE_block_3 self) x y) (fun x =>
  and_then (Sequential (upsample_3 self) x) (fun x =>
  SPADE_residual_block.forward (SPADE_block_4 self) x y)))))))).
End SPADE_Generator.

Module ImageEncoder.
Record t : Type := {
  input_nch : nat;
  hidden_nchs : list nat;
  fc_mu : nat * nat;        (* nn.Linear(in_features, out_features) *)
  fc_var : nat * nat;
  activate : layer;
  Conv : list (list layer);
  Dsample : list (list layer)
}.

(** [get_feature_size(self, H, W)]; [hidden_nchs[-1]] of an empty list is
    an [IndexError]. *)
Definition get_feature_size (hidden_nchs : list nat) (H W : nat)
  : result (nat * nat * nat) :=
  match last hidden_nchs with
  | None => inl IndexError
  | Some c =>
      let h := H / 2 ^ length hidden_nchs in
      let w := W / 2 ^ length hidden_nchs in
      inr (c, h, w)
  end.

(** The [i]-th convolution block built by the loop of [__init__], [c] being
    [hidden_nchs[i]]. *)
Definition encoder_conv (input_nch : nat) (hidden_nchs : list nat) (i c : nat)
  : list layer :=
  if i =? 0 then ConvBlock input_nch c
  else ConvBlock (default 0 (hidden_nchs !! (i - 1))) c.

Definition init (input_nch : nat) (hidden_nchs : list nat) (H W : nat) : result t :=
  (* get the feature size *)
  and_then (get_feature_size hidden_nchs H W) (fun chw =>
  let '(c, h, w) := chw in
  let feature_nch := c * h * w in
  inr {| input_nch := input_nch;
         hidden_nchs := hidden_nchs;
         fc_mu := (feature_nch, 256);
         fc_var := (feature_nch, 256);
         activate := GELU;
         Conv := imap (encoder_conv input_nch hidden_nchs) hidden_nchs;
         Dsample := (fun c => DownSample c c) <$> hidden_nchs |}).

Fixpoint layers (convs dsamples : list (list layer)) (x : size) : result size :=
  match convs, dsamples with
  | conv :: convs', dsample :: dsamples' =>
      and_then (Sequential conv x) (fun layer_output =>
      and_then (Sequential dsample layer_output) (fun x =>
      layers convs' dsamples' x))
  | _, _ => inr x
  end.

Definition forward (self : t) (x : size)
  : result ((nat * nat) * (nat * nat)) :=
  and_then (layers (Conv self) (Dsample self) x) (fun x =>
  and_then (view_rows x) (fun x =>
  and_then (Linear (fst (fc_mu self)) (snd (fc_mu self)) x) (fun mu =>
  and_then (Linear (fst (fc_var self)) (snd (fc_var self)) x) (fun logvar =>
  inr (mu, logvar))))).
End ImageEncoder.

Module Semantic_Generator.
Record t : Type := {
  style_encoder : ImageEncoder.t;
  generator : SPADE_Generator.t
}.

Definition init (input_nch : nat) (encoder_nchs : list nat) (H W : nat) : result t :=
  and_then (ImageEncoder.init input_nch encoder_nchs H W) (fun enc =>
  inr {| style_encoder := enc; generator := SPADE_Generator.init 3 |}).

(** [std = exp(0.5 * logvar)], [eps = randn_like(std)], [z = mu + eps * std],
    then [z.view(z.size(0), 1, 16, 16)]. *)
Definition reparameterize (mu logvar : nat * nat) : result size :=
  let std := logvar in
  let eps := std in
  and_then (broadcast2 eps std) (fun es =>
  and_then (broadcast2 mu es) (fun z =>
  if snd z =? 1 * 16 * 16 then inr (Size (fst z) 1 16 16) else inl RuntimeError)).

(** [x.permute(0, 1, 3, 2)] *)
Definition permute_0132 (x : size) : size :=
  Size (batch x) (channels x) (width x) (height x).

Definition forward (self : t) (x y : size)
  : result (size * (nat * nat) * (nat * nat)) :=
  and_then (ImageEncoder.forward (style_encoder self) (permute_0132 x)) (fun ml =>
  let '(mu, logvar) := ml in
  and_then (reparameterize mu logvar) (fun z =>
  and_then (SPADE_Generator.forward (generator self) z y) (fun fake_im =>
  inr (fake_im, mu, logvar)))).
End Semantic_Generator.

Module Discriminator.
Definition init (input_nch hidden_nch : nat) : list layer :=
  [ (* layer 1 *)
    Conv2d input_nch hidden_nch 4 2 1; LeakyReLU;
    (* layer 2 *)
    Conv2d hidden_nch (hidden_nch * 2) 4 2 1; BatchNorm2d (hidden_nch * 2); LeakyReLU;
    (* layer 3 *)
    Conv2d (hidden_nch * 2) (hidden_nch * 4) 4 2 1; BatchNorm2d (hidden_nch * 4);
    LeakyReLU;
    (* layer 4 *)
    Conv2d (hidden_nch * 4) (hidden_nch * 8) 4 1 1; BatchNorm2d (hidden_nch * 8);
    LeakyReLU;
    (* final layer *)
    Conv2d (hidden_nch * 8) 1 4 1 1 ].

Definition forward (model : list layer) (x : size) : result size :=
  Sequential model x.
End Discriminator.

(** [VGG19]: the slices are cut out of
    [torchvision.models.vgg19(pretrained=True).features], which is given
    here as the list of its layers, each a function that may raise. *)
Module VGG19.
Section Slices.
Context {A : Type}.

Record t : Type := {
  slice1 : list (A -> result A);
  slice2 : list (A -> result A);
  slice3 : list (A -> result A);
  slice4 : list (A -> result A);
  slice5 : list (A -> result A)
}.

(** [range(lo, hi)] *)
Definition range (lo hi : nat) : list nat := seq lo (hi - lo).

(** [for x in indices: slice.add_module(str(x), features[x])] *)
Fixpoint add_modules (features : list (A -> result A)) (indices : list nat)
    (slice : list (A -> result A)) : result (list (A -> result A)) :=
  match indices with
  | [] => inr slice
  | x :: indices' =>
      match features !! x with
      | None => inl IndexError
      | Some m => add_modules features indices' (slice ++ [m])
      end
  end.

Definition init (vgg_pretrained_features : list (A -> result A)) : result t :=
  and_then (add_modules vgg_pretrained_features (range 0 2) []) (fun slice1 =>
  and_then (add_modules vgg_pretrained_features (range 2 7) []) (fun slice2 =>
  and_then (add_modules vgg_pretrained_features (range 7 12) []) (fun slice3 =>
  and_then (add_modules vgg_pretrained_features (range 12 21) []) (fun slice4 =>
  and_then (add_modules vgg_pretrained_features (range 21 30) []) (fun slice5 =>
  inr {| slice1 := slice1; slice2 := slice2; slice3 := slice3;
         slice4 := slice4; slice5 := slice5 |}))))).

(** A [torch.nn.Sequential] of such layers. *)
Fixpoint run (ms : list (A -> result A)) (X : A) : result A :=
  match ms with
  | [] => inr X
  | m :: ms' => and_then (m X) (run ms')
  end.

Definition forward (self : t) (X : A) : result (list A) :=
  and_then (run (slice1 self) X) (fun h_relu1 =>
  and_then (run (slice2 self) h_relu1) (fun h_relu2 =>
  and_then (run (slice3 self) h_relu2) (fun h_relu3 =>
  and_then (run (slice4 self) h_relu3) (fun h_relu4 =>
  and_then (run (slice5 self) h_relu4) (fun h_relu5 =>
  let out := [h_relu1; h_relu2; h_relu3; h_relu4; h_relu5] in
  inr out))))).
End Slices.
Arguments t : clear implicits.
End VGG19.

(** The dimension checker under [if __name__ == "__main__"], for a batch
    of [b] images. *)
Definition dimension_checker (b : nat) : result size :=
  let encoder_nchs := [4; 8; 16; 32; 64] in
  and_then (ImageEncoder.init 3 encoder_nchs 256 256) (fun encoder =>
  let generator := SPADE_Generator.init 3 in
  let discriminator := Discriminator.init 4 64 in
  let x := Size b 3 256 256 in
  let y := Size b 1 256 256 in
  and_then (ImageEncoder.forward encoder x) (fun ml =>
  let '(mu, logvar) := ml in
  (* reparameterization *)
  and_then (Semantic_Generator.reparameterize mu logvar) (fun z =>
  (* SPADE Generator *)
  and_then (SPADE_Generator.forward generator z y) (fun fake =>
  (* Patch discriminator *)
  and_then (cat1 fake y) (fun fake_concat =>
  and_then (cat1 x y) (fun real_concat =>
  and_then (cat0 fake_concat real_concat) (fun fake_and_real =>
  Discriminator.forward discriminator fake_and_real))))))).

End modules.


(** * Facts about tensors *)
Module torch_facts.

Lemma clamp_val_range lo hi v :
  lo <= hi -> clamp_val lo hi v = NaN \/ in_range lo hi (clamp_val lo hi v).
Proof.
  intros Hle. destruct v as [x|]; [right | by left]. simpl. split.
  - apply Q.min_glb; [apply Q.le_max_r | exact Hle].
  - apply Q.le_min_r.
Qed.

Lemma clamp_clamped_to lo hi x :
  lo <= hi -> trainer.clamped_to lo hi (clamp x lo hi).
Proof.
  intros Hle. unfold trainer.clamped_to, clamp. apply Forall_fmap, Forall_true.
  intros v. simpl. by apply clamp_val_range.
Qed.

Lemma feqb_isclose a b : feqb a b = true -> isclose a b = true.
Proof. unfold isclose. by intros ->. Qed.

Lemma all2_impl (f g : fval -> fval -> bool) a b :
  (forall x y, f x y = true -> g x y = true) ->
  all2 f a b = true -> all2 g a b = true.
Proof.
  intros Hfg. revert b. induction a as [|x a IH]; intros [|y b]; simpl; try done.
  rewrite !andb_true_iff. intros [Hx Hab]. split; [by apply Hfg | by apply IH].
Qed.

(** Tensors that are [equal] are [allclose]; a check that rules out the
    second rules out the first. *)
Lemma equal_allclose a b : equal a b = true -> allclose a b = true.
Proof. apply all2_impl, feqb_isclose. Qed.

Lemma not_allclose_not_equal a b : allclose a b = false -> equal a b = false.
Proof.
  intros Hc. destruct (equal a b) eqn:He; [| done].
  apply equal_allclose in He. congruence.
Qed.

(** A tensor with a NaN is close to nothing. *)
Lemma isclose_nan b : isclose NaN b = false.
Proof. reflexivity. Qed.


Lemma feq_add_zero_mul x q : feq (fadd x (fmul (Real 0) (Real q))) x.
Proof. destruct x as [r|]; simpl; [ring | done]. Qed.

(** Adding [0 * noise] changes nothing when the noise is finite. *)
Lemma tadd_scale_zero a e :
  length e = length a -> Forall (fun v => isfinite v = true) e ->
  teq (tadd a (scale (Real 0) e)) a.
Proof.
  unfold teq, tadd, scale. revert e.
  induction a as [|x a IH]; intros [|v e] Hlen Hfin; simpl in *;
    try discriminate; [constructor |].
  apply Forall_cons in Hfin as [Hv Hfin]. constructor.
  - destruct v as [q|]; [apply feq_add_zero_mul | done].
  - apply IH; [lia | done].
Qed.

End torch_facts.

(** * Facts about the noise schedule *)
Module schedule_facts.
Import diffusion_solver.

Lemma linspace_length a b n : length (linspace a b n) = n.
Proof. unfold linspace. by rewrite length_map, length_seq. Qed.

Lemma linspace_lookup a b n i :
  (i < n)%nat ->
  linspace a b n !! i
  = Some (a + inject_Z (Z.of_nat i) * ((b - a) / inject_Z (Z.of_nat (n - 1)))).
Proof.
  intros Hi. unfold linspace.
  rewrite list_lookup_fmap, lookup_seq_lt by done. reflexivity.
Qed.

Lemma inject_nat_le i j : (i <= j)%nat -> inject_Z (Z.of_nat i) <= inject_Z (Z.of_nat j).
Proof. intros H. rewrite <- Zle_Qle. lia. Qed.

Lemma inject_nat_nonneg i : 0 <= inject_Z (Z.of_nat i).
Proof. change 0 with (inject_Z 0). rewrite <- Zle_Qle. lia. Qed.

(** The step of the interpolation is non-negative and spans the interval. *)
Lemma step_nonneg a b n : a < b -> 0 <= (b - a) / inject_Z (Z.of_nat (n - 1)).
Proof.
  intros Hab. pose proof (inject_nat_nonneg (n - 1)) as Hk.
  apply Qle_lteq in Hk as [Hk | Hk].
  - apply Qlt_le_weak, Qlt_shift_div_l; [done | lra].
  - rewrite <- Hk. unfold Qdiv. change (/ 0) with 0. lra.
Qed.

Lemma step_span a b n i :
  a < b -> (i < n)%nat ->
  inject_Z (Z.of_nat i) * ((b - a) / inject_Z (Z.of_nat (n - 1))) <= b - a.
Proof.
  intros Hab Hi.
  pose proof (inject_nat_nonneg i) as Hi0.
  pose proof (inject_nat_le i (n - 1) ltac:(lia)) as Hik.
  pose proof (step_nonneg a b n Hab) as Hd.
  set (k := inject_Z (Z.of_nat (n - 1))) in *.
  set (d := (b - a) / k) in *.
  destruct (Qlt_le_dec 0 k) as [Hk | Hk].
  - assert (Hkd : d * k == b - a) by (unfold d; field; lra).
    nra.
  - assert (Hi' : inject_Z (Z.of_nat i) == 0) by lra.
    rewrite Hi'. lra.
Qed.

Lemma linspace_bounds a b n i v :
  a < b -> linspace a b n !! i = Some v -> a <= v /\ v <= b.
Proof.
  intros Hab Hv.
  assert (Hi : (i < n)%nat).
  { apply lookup_lt_Some in Hv. by rewrite linspace_length in Hv. }
  rewrite linspace_lookup in Hv by done. injection Hv as <-.
  pose proof (step_span a b n i Hab Hi).
  pose proof (step_nonneg a b n Hab).
  pose proof (inject_nat_nonneg i).
  split; [nra | lra].
Qed.

Lemma linspace_mono a b n i j vi vj :
  a < b -> (i <= j)%nat ->
  linspace a b n !! i = Some vi -> linspace a b n !! j = Some vj -> vi <= vj.
Proof.
  intros Hab Hij Hvi Hvj.
  assert (Hj : (j < n)%nat).
  { apply lookup_lt_Some in Hvj. by rewrite linspace_length in Hvj. }
  rewrite linspace_lookup in Hvi by lia. rewrite linspace_lookup in Hvj by done.
  injection Hvi as <-. injection Hvj as <-.
  pose proof (step_nonneg a b n Hab).
  pose proof (inject_nat_le i j Hij).
  nra.
Qed.

Lemma cumprod_from_length acc l : length (cumprod_from acc l) = length l.
Proof. revert acc. induction l as [|a l IH]; intros acc; simpl; [done | by rewrite IH]. Qed.

Lemma cumprod_from_bounds acc l i v :
  0 < acc -> unit_open l -> cumprod_from acc l !! i = Some v -> 0 < v /\ v < acc.
Proof.
  revert acc i. induction l as [|a l IH]; intros acc i Hacc Hl Hv; [done |].
  apply Forall_cons in Hl as [[Ha0 Ha1] Hl].
  destruct i as [|i]; simpl in Hv.
  - injection Hv as <-. nra.
  - apply IH in Hv; [| nra | done]. nra.
Qed.

Lemma cumprod_from_decreasing acc l i j vi vj :
  0 < acc -> unit_open l -> (i < j)%nat ->
  cumprod_from acc l !! i = Some vi -> cumprod_from acc l !! j = Some vj ->
  vj < vi.
Proof.
  revert acc i j. induction l as [|a l IH]; intros acc i j Hacc Hl Hij Hvi Hvj; [done |].
  pose proof Hl as Hl'. apply Forall_cons in Hl' as [[Ha0 Ha1] Htl].
  destruct j as [|j]; [lia |]. simpl in Hvj.
  destruct i as [|i]; simpl in Hvi.
  - injection Hvi as <-.
    apply cumprod_from_bounds in Hvj; [tauto | nra | done].
  - apply (IH (acc * a) i j); [nra | done | lia | done | done].
Qed.

Lemma alphas_unit_open betas :
  Forall (fun b => 0 < b /\ b < 1) betas -> unit_open (alphas betas).
Proof.
  unfold unit_open, alphas. intros H. apply Forall_fmap.
  eapply Forall_impl; [exact H |]. intros b [H0 H1]. simpl. lra.
Qed.

(** C7. For [0 < beta_start < beta_end < 1] and [T >= 1] the linear policy of
    [get_beta_schedule] yields [T] values that never decrease and lie
    strictly between 0 and 1; the products [alpha_bar] of the [1 - beta]
    strictly decrease, start at [1 - beta[0]] and are still positive at
    [T - 1]. *)
Theorem linear_schedule_invariants (beta_start beta_end : Q) (T : nat) :
  0 < beta_start -> beta_start < beta_end -> beta_end < 1 -> (1 <= T)%nat ->
  exists betas,
    get_beta_schedule "linear" beta_start beta_end T = inr betas
    /\ length betas = T
    /\ (forall i j bi bj, (i <= j)%nat ->
         betas !! i = Some bi -> betas !! j = Some bj -> bi <= bj)
    /\ (forall i b, betas !! i = Some b -> 0 < b /\ b < 1)
    /\ (forall i j ai aj, (i < j)%nat ->
         alphas_cumprod betas !! i = Some ai ->
         alphas_cumprod betas !! j = Some aj -> aj < ai)
    /\ (exists b0 a0, betas !! 0%nat = Some b0
         /\ alphas_cumprod betas !! 0%nat = Some a0 /\ a0 == 1 - b0)
    /\ (exists aT, alphas_cumprod betas !! (T - 1)%nat = Some aT /\ 0 < aT).
Proof.
  intros H0 Hlt H1 HT.
  exists (linspace beta_start beta_end T).
  assert (Hin : forall i b, linspace beta_start beta_end T !! i = Some b ->
                            0 < b /\ b < 1).
  { intros i b Hb. apply linspace_bounds in Hb; [lra | done]. }
  assert (Hopen : unit_open (alphas (linspace beta_start beta_end T))).
  { apply alphas_unit_open, Forall_lookup. exact Hin. }
  split; [reflexivity |].
  split; [apply linspace_length |].
  split; [intros i j bi bj; by apply linspace_mono |].
  split; [exact Hin |].
  split.
  { intros i j ai aj Hij. unfold alphas_cumprod, cumprod.
    apply cumprod_from_decreasing; [lra | done | done]. }
  split.
  - destruct (linspace beta_start beta_end T) as [|b0 rest] eqn:El.
    { apply (f_equal length) in El. rewrite linspace_length in El. simpl in El. lia. }
    exists b0, (1 * (1 - b0)).
    split; [reflexivity | split; [reflexivity | ring]].
  - destruct (alphas_cumprod (linspace beta_start beta_end T) !! (T - 1)%nat)
      as [aT|] eqn:Ea.
    + exists aT. split; [done |].
      unfold alphas_cumprod, cumprod in Ea.
      apply cumprod_from_bounds in Ea; [tauto | lra | done].
    + apply lookup_ge_None in Ea.
      unfold alphas_cumprod, cumprod, alphas in Ea.
      rewrite cumprod_from_length, length_map, linspace_length in Ea. lia.
Qed.

(** The script's own schedule: [beta_start = 0.0001], [beta_end = 0.02],
    [T = 300]. *)
Lemma linear_schedule_invariants_witness :
  exists betas,
    get_beta_schedule "linear" (1 # 10000) (2 # 100) 300 = inr betas
    /\ length betas = 300%nat
    /\ (forall i j bi bj, (i <= j)%nat ->
         betas !! i = Some bi -> betas !! j = Some bj -> bi <= bj)
    /\ (forall i b, betas !! i = Some b -> 0 < b /\ b < 1)
    /\ (forall i j ai aj, (i < j)%nat ->
         alphas_cumprod betas !! i = Some ai ->
         alphas_cumprod betas !! j = Some aj -> aj < ai)
    /\ (exists b0 a0, betas !! 0%nat = Some b0
         /\ alphas_cumprod betas !! 0%nat = Some a0 /\ a0 == 1 - b0)
    /\ (exists aT, alphas_cumprod betas !! (300 - 1)%nat = Some aT /\ 0 < aT).
Proof.
  apply (linear_schedule_invariants (1 # 10000) (2 # 100) 300);
    [reflexivity | reflexivity | reflexivity | lia].
Defined.

Example schedule_unknown_kind :
  get_beta_schedule "cosine" (1 # 10000) (2 # 100) 300
  = inl (UnsupportedScheduleKind "cosine").
Proof. reflexivity. Qed.
End schedule_facts.

(** * Facts about the training loop *)
Module trainer_facts.
Import trainer.

Section Facts.
Context {E : env}.
Variable cfg : config.
Variable initial_state : gmap string tensor.

Implicit Types s : state (E:=E).

Lemma accumulate_empty (g : gmap string tensor) : accumulate ∅ g = g.
Proof. unfold accumulate. apply (left_id ∅ _). Qed.

Lemma update_checker_state params s :
  snd (update_checker initial_state params s) = s.
Proof.
  induction params as [|[name p] rest IH]; simpl; [done |].
  destruct (initial_state !! name) as [init|]; [| done].
  destruct (negb (allclose p init)); [exact IH | done].
Qed.

(** Unfolding the monad and the setters on a state given field by field. *)
Ltac run_state :=
  cbv beta iota delta [set_x_t set_generator record set_optimizer
    set_seg_model set_seg_grad seg_grad seg_model x_t dpm_model optimizer
    generator calls bind modify get ret call_clamp zero_grad backward
    optimizer_step fst snd].

(** A guided step is the update checker run on the advanced state. *)
Lemma guided_step_unfold y j s :
  guided_step cfg initial_state y j s
  = update_checker initial_state (seg_model (advanced cfg y j s))
                   (advanced cfg y j s).
Proof.
  destruct s as [d seg gr opt xt gen cs].
  unfold guided_step, advanced, loss_gradients, guidance_gradient, x_0_hat,
    step_calls.
  run_state. rewrite accumulate_empty.
  destruct (Adam.step_all _ _ _ _ _) as [params st].
  destruct (reverse_sample_typeII _ _ _ _ _ _) as [[[mean std] eps] g].
  run_state. repeat rewrite <- app_assoc. reflexivity.
Qed.

Lemma guided_step_state y j s :
  snd (guided_step cfg initial_state y j s) = advanced cfg y j s.
Proof. rewrite guided_step_unfold. apply update_checker_state. Qed.

Lemma advanced_dpm_model y j s :
  dpm_model (advanced cfg y j s) = dpm_model s.
Proof.
  unfold advanced. destruct (Adam.step_all _ _ _ _ _) as [params st].
  by destruct (reverse_sample_typeII _ _ _ _ _ _) as [[[mean std] eps] g].
Qed.

Lemma advanced_calls y j s :
  calls (advanced cfg y j s) = calls s ++ step_calls (dpm_model s) (x_t s) j.
Proof.
  unfold advanced. destruct (Adam.step_all _ _ _ _ _) as [params st].
  by destruct (reverse_sample_typeII _ _ _ _ _ _) as [[[mean std] eps] g].
Qed.

Lemma advanced_seg_model y j s :
  seg_model (advanced cfg y j s)
  = fst (Adam.step_all (sqrt E) (lr cfg) (loss_gradients y j s)
                       (seg_model s) (optimizer s)).
Proof.
  unfold advanced. destruct (Adam.step_all _ _ _ _ _) as [params st].
  by destruct (reverse_sample_typeII _ _ _ _ _ _) as [[[mean std] eps] g].
Qed.

Lemma advanced_seg_grad y j s :
  seg_grad (advanced cfg y j s) = loss_gradients y j s.
Proof.
  unfold advanced. destruct (Adam.step_all _ _ _ _ _) as [params st].
  by destruct (reverse_sample_typeII _ _ _ _ _ _) as [[[mean std] eps] g].
Qed.

Lemma advanced_x_t y j s :
  x_t (advanced cfg y j s)
  = let tII := reverse_sample_typeII E (x_t s) j (dpm_model s) "gaussian"
                                     (generator s) in
    tadd (tadd (fst (fst (fst tII)))
               (guidance_gradient cfg y j (seg_model (advanced cfg y j s)) s))
         (scale (snd (fst (fst tII))) (snd (fst tII))).
Proof.
  unfold advanced. destruct (Adam.step_all _ _ _ _ _) as [params st].
  by destruct (reverse_sample_typeII _ _ _ _ _ _) as [[[mean std] eps] g].
Qed.

(** What the update checker decides. *)
Lemma update_checker_ok params s :
  fst (update_checker initial_state params s) = inr tt
  <-> all_updated initial_state params.
Proof.
  unfold all_updated.
  induction params as [|[name p] rest IH]; simpl.
  - split; [constructor | done].
  - rewrite Forall_cons. simpl.
    destruct (initial_state !! name) as [init|] eqn:Hinit.
    + destruct (allclose p init) eqn:Hclose; simpl.
      * split; [done |]. intros [(r & Hr & Hc & _) _]. congruence.
      * rewrite IH. split; [| tauto]. intros Hrest. split; [| done].
        exists init. auto using torch_facts.not_allclose_not_equal.
    + split; [done |]. intros [(r & Hr & _) _]. congruence.
Qed.

Lemma update_checker_error params s e :
  fst (update_checker initial_state params s) = inl e ->
  (exists name p r, (name, p) ∈ params /\ initial_state !! name = Some r
     /\ allclose p r = true
     /\ e = AssertionError ("Parameter " ++ name ++ " was not updated!"))
  \/ (exists name p, (name, p) ∈ params /\ initial_state !! name = None
       /\ e = KeyError name).
Proof.
  induction params as [|[name p] rest IH]; simpl; [done |].
  destruct (initial_state !! name) as [init|] eqn:Hinit.
  - destruct (allclose p init) eqn:Hclose; simpl.
    + intros [= <-]. left. exists name, p, init.
      split; [apply list_elem_of_here | done].
    + intros He. destruct (IH He) as [(n & q & r & Hin & H)|(n & q & Hin & H)].
      * left. exists n, q, r. split; [by apply list_elem_of_further | done].
      * right. exists n, q. split; [by apply list_elem_of_further | done].
  - intros [= <-]. right. exists name, p.
    split; [apply list_elem_of_here | done].
Qed.

(** ** The frame of the diffusion model *)
Lemma continues_refl s : continues s s.
Proof. split; [done |]. exists []. by rewrite app_nil_r. Qed.

Lemma continues_trans s1 s2 s3 :
  continues s1 s2 -> continues s2 s3 -> continues s1 s3.
Proof.
  intros [Hd1 (n1 & Hc1 & Hn1)] [Hd2 (n2 & Hc2 & Hn2)]. split; [congruence |].
  exists (n1 ++ n2). split.
  - by rewrite Hc2, Hc1, app_assoc.
  - apply Forall_app. split; [done |]. by rewrite Hd1 in Hn2.
Qed.

Lemma step_calls_model (d : Denoiser E) x j :
  Forall (fun c => forall d', call_model c = Some d' -> d' = d) (step_calls d x j).
Proof. unfold step_calls. repeat constructor; simpl; congruence. Qed.

Lemma guided_step_continues y j s :
  continues s (snd (guided_step cfg initial_state y j s)).
Proof.
  rewrite guided_step_state. split; [apply advanced_dpm_model |].
  exists (step_calls (dpm_model s) (x_t s) j).
  split; [apply advanced_calls | apply step_calls_model].
Qed.

Lemma bind_continues {A B} (m : M A) (k : A -> M B) s :
  continues s (snd (m s)) ->
  (forall a s', continues s' (snd (k a s'))) ->
  continues s (snd (bind m k s)).
Proof.
  intros Hm Hk. unfold bind. destruct (m s) as [[e|a] s']; simpl in *; [done |].
  eapply continues_trans; [exact Hm | apply Hk].
Qed.

Lemma for_each_continues {A} (l : list A) (body : A -> M unit) :
  (forall a s, continues s (snd (body a s))) ->
  forall s, continues s (snd (for_each l body s)).
Proof.
  intros Hbody. induction l as [|a l IH]; intros s; simpl.
  - apply continues_refl.
  - apply bind_continues; [apply Hbody | intros _; apply IH].
Qed.

Lemma entering_continues s : continues s (entering cfg s).
Proof.
  unfold entering. destruct (torch_randn E (generator s)) as [noise g].
  destruct (reverse_iterate E noise _ _ g) as [x_0 g']. split; [done |].
  eexists. split; [reflexivity |]. repeat constructor; simpl; congruence.
Qed.

(** One trajectory is the guided loop from [entering], then the last clamp. *)
Lemma trajectory_unfold y s :
  trajectory cfg initial_state y s
  = match for_each (reverse (range 0 (T cfg))) (guided_step cfg initial_state y)
                   (entering cfg s) with
    | (inr _, s') =>
        (inr (clamp (unconditional_raw cfg s) (-1) 1, clamp (x_t s') (-1) 1),
         record (Clamp (x_t s') (-1) 1) s')
    | (inl e, s') => (inl e, s')
    end.
Proof.
  unfold trajectory, entering, unconditional_raw, call_clamp, bind, modify,
    get, ret. simpl.
  destruct (torch_randn E (generator s)) as [noise g]. simpl.
  destruct (reverse_iterate E noise _ _ g) as [x_0 g']. simpl.
  unfold set_x_t, set_generator, record. simpl.
  repeat rewrite <- app_assoc. simpl.
  destruct (for_each _ _ _) as [[e|[]] s']; reflexivity.
Qed.

Lemma trajectory_continues y s :
  continues s (snd (trajectory cfg initial_state y s)).
Proof.
  rewrite trajectory_unfold.
  pose proof (for_each_continues (reverse (range 0 (T cfg)))
                (guided_step cfg initial_state y)
                (guided_step_continues y) (entering cfg s)) as Hloop.
  destruct (for_each _ _ _) as [[e|u] s']; simpl in *.
  - eapply continues_trans; [apply entering_continues | exact Hloop].
  - eapply continues_trans; [apply entering_continues |].
    eapply continues_trans; [exact Hloop |].
    split; [done |]. exists [Clamp (x_t s') (-1) 1]. split; [done |].
    repeat constructor. simpl. congruence.
Qed.

Lemma train_continues train_data s :
  continues s (snd (train cfg initial_state train_data s)).
Proof.
  unfold train. apply for_each_continues. intros epoch s1.
  apply for_each_continues. intros xy s2.
  apply bind_continues; [apply trajectory_continues |].
  intros a s3. apply continues_refl.
Qed.

(** ** The shape of the call trace *)
Lemma range_length a b : length (range a b) = Z.to_nat (b - a).
Proof. unfold range. by rewrite length_map, length_seq. Qed.

Lemma reverse_range_length n : length (reverse (range 0 n)) = Z.to_nat n.
Proof. rewrite length_reverse, range_length. f_equal. lia. Qed.

(** [range(0, n)[::-1]] counts down from [n - 1] to [0] in steps of one. *)
Lemma reverse_range_lookup n i :
  (i < Z.to_nat n)%nat ->
  reverse (range 0 n) !! i = Some (n - 1 - Z.of_nat i)%Z.
Proof.
  intros Hi. rewrite reverse_lookup by (rewrite range_length; lia).
  rewrite range_length. unfold range.
  rewrite list_lookup_fmap, lookup_seq_lt by lia. simpl. f_equal. lia.
Qed.

Lemma phases_blocks (d : Denoiser E) xs l :
  phases (concat (zip_with (step_calls d) xs l))
  = map GUIDED_STEP (take (length xs) l).
Proof.
  revert l. induction xs as [|x xs IH]; intros [|j l]; simpl; try done.
  f_equal. apply IH.
Qed.

Lemma clamp_bounds_blocks (d : Denoiser E) xs l :
  length xs = length l ->
  clamp_bounds (concat (zip_with (step_calls d) xs l))
  = replicate (length l) (0, 1).
Proof.
  revert l. induction xs as [|x xs IH]; intros [|j l] Hlen; simpl in *; try done.
  f_equal. apply IH. lia.
Qed.

Lemma seg_inputs_blocks (d : Denoiser E) xs l :
  Forall (clamped_to 0 1) (seg_inputs (concat (zip_with (step_calls d) xs l))).
Proof.
  revert l. induction xs as [|x xs IH]; intros [|j l]; simpl; try constructor.
  { by apply torch_facts.clamp_clamped_to. }
  constructor; [by apply torch_facts.clamp_clamped_to | apply IH].
Qed.

Lemma noise_draws_blocks (d : Denoiser E) xs l :
  noise_draws (concat (zip_with (step_calls d) xs l)) = [].
Proof.
  revert l. induction xs as [|x xs IH]; intros [|j l]; simpl; done.
Qed.

(** The guided loop appends one block of calls per step it starts; the
    first block begins with the image the loop was entered with. *)
Lemma guided_loop_calls y l s :
  exists xs,
    calls (snd (for_each l (guided_step cfg initial_state y) s))
    = calls s ++ concat (zip_with (step_calls (dpm_model s)) xs l)
    /\ (length xs <= length l)%nat
    /\ (fst (for_each l (guided_step cfg initial_state y) s) = inr tt ->
        length xs = length l)
    /\ (l <> [] -> xs !! 0%nat = Some (x_t s)).
Proof.
  revert s. induction l as [|j l IH]; intros s.
  { exists []. cbn [for_each ret fst snd zip_with concat length].
    rewrite app_nil_r. split; [done |]. split; [done |]. split; done. }
  cbn [for_each]. unfold bind.
  pose proof (guided_step_state y j s) as Hst.
  destruct (guided_step cfg initial_state y j s) as [[e|[]] s1];
    cbn [snd] in Hst; subst s1.
  - exists [x_t s]. cbn [fst snd zip_with concat length].
    rewrite advanced_calls, app_nil_r.
    split; [done |]. split; [lia |]. split; done.
  - destruct (IH (advanced cfg y j s)) as (xs & Hcalls & Hle & Hlen & _).
    exists (x_t s :: xs). rewrite Hcalls, advanced_calls, advanced_dpm_model.
    cbn [zip_with concat length]. rewrite <- !app_assoc.
    split; [done |]. split; [lia |]. split; [| done].
    intros Hok. f_equal. by apply Hlen.
Qed.

(** ** Parameter names are stable *)
Lemma step_all_names sq l grads params st :
  (fst (Adam.step_all sq l grads params st)).*1 = params.*1.
Proof.
  revert st. induction params as [|[name p] rest IH]; intros st;
    cbn [Adam.step_all]; [done |].
  destruct (grads !! name) as [g|].
  - destruct (Adam.update sq l (default (Adam.fresh p) (st !! name)) p g)
      as [p' s1].
    specialize (IH (<[name:=s1]> st)).
    destruct (Adam.step_all sq l grads rest (<[name:=s1]> st)) as [rest' st'].
    cbn [fst fmap list_fmap] in *. by rewrite IH.
  - specialize (IH st).
    destruct (Adam.step_all sq l grads rest st) as [rest' st'].
    cbn [fst fmap list_fmap] in *. by rewrite IH.
Qed.

Lemma for_each_invariant {A} (P : state (E:=E) -> Prop) (l : list A)
    (body : A -> M unit) :
  (forall a s, P s -> P (snd (body a s))) ->
  forall s, P s -> P (snd (for_each l body s)).
Proof.
  intros Hbody. induction l as [|a l IH]; intros s Hs; simpl; [done |].
  unfold bind. specialize (Hbody a s Hs).
  destruct (body a s) as [[e|u] s']; simpl in *; [done | by apply IH].
Qed.

Lemma guided_step_names y j s :
  (seg_model (snd (guided_step cfg initial_state y j s))).*1 = (seg_model s).*1.
Proof. rewrite guided_step_state, advanced_seg_model. apply step_all_names. Qed.

Lemma entering_seg_model s : seg_model (entering cfg s) = seg_model s.
Proof.
  unfold entering. destruct (torch_randn E (generator s)) as [noise g].
  by destruct (reverse_iterate E noise _ _ g) as [x_0 g'].
Qed.

Lemma trajectory_names y s :
  (seg_model (snd (trajectory cfg initial_state y s))).*1 = (seg_model s).*1.
Proof.
  rewrite trajectory_unfold.
  pose proof (for_each_invariant
                (fun s' => (seg_model s').*1 = (seg_model s).*1)
                (reverse (range 0 (T cfg))) (guided_step cfg initial_state y))
    as Hloop.
  specialize (Hloop (fun j s' H => eq_trans (guided_step_names y j s') H)
                    (entering cfg s)
                    (f_equal (fmap fst) (entering_seg_model s))).
  by destruct (for_each _ _ _) as [[e|u] s'].
Qed.

Lemma advanced_generator y j s :
  generator (advanced cfg y j s)
  = snd (reverse_sample_typeII E (x_t s) j (dpm_model s) "gaussian" (generator s)).
Proof.
  unfold advanced. destruct (Adam.step_all _ _ _ _ _) as [params st].
  by destruct (reverse_sample_typeII _ _ _ _ _ _) as [[[mean std] eps] g].
Qed.

Lemma advanced_optimizer y j s :
  optimizer (advanced cfg y j s)
  = snd (Adam.step_all (sqrt E) (lr cfg) (loss_gradients y j s)
                       (seg_model s) (optimizer s)).
Proof.
  unfold advanced. destruct (Adam.step_all _ _ _ _ _) as [params st].
  by destruct (reverse_sample_typeII _ _ _ _ _ _) as [[[mean std] eps] g].
Qed.

Lemma entering_calls s :
  calls (entering cfg s)
  = calls s ++ [Randn (fst (torch_randn E (generator s)));
                ReverseIterate (fst (torch_randn E (generator s))) (T cfg - 1)
                               (dpm_model s);
                Clamp (unconditional_raw cfg s) (-1) 1].
Proof.
  unfold entering, unconditional_raw.
  destruct (torch_randn E (generator s)) as [noise g].
  by destruct (reverse_iterate E noise _ _ g) as [x_0 g'].
Qed.

Lemma entering_x_t s : x_t (entering cfg s) = fst (torch_randn E (generator s)).
Proof.
  unfold entering. destruct (torch_randn E (generator s)) as [noise g].
  by destruct (reverse_iterate E noise _ _ g) as [x_0 g'].
Qed.

Lemma entering_dpm_model s : dpm_model (entering cfg s) = dpm_model s.
Proof.
  unfold entering. destruct (torch_randn E (generator s)) as [noise g].
  by destruct (reverse_iterate E noise _ _ g) as [x_0 g'].
Qed.

(** The calls of one trajectory: the draw, the unconditional pass and
    its clamp, one block per guided step started, and the last clamp
    when the loop ran to its end. *)
Lemma trajectory_calls y s :
  exists xs tail,
    calls (snd (trajectory cfg initial_state y s))
    = calls s
      ++ [Randn (fst (torch_randn E (generator s)));
          ReverseIterate (fst (torch_randn E (generator s))) (T cfg - 1)
                         (dpm_model s);
          Clamp (unconditional_raw cfg s) (-1) 1]
      ++ concat (zip_with (step_calls (dpm_model s)) xs
                          (reverse (range 0 (T cfg))))
      ++ tail
    /\ (reverse (range 0 (T cfg)) <> [] ->
        xs !! 0%nat = Some (fst (torch_randn E (generator s))))
    /\ (tail = [] \/ tail = [Clamp (x_t (snd (trajectory cfg initial_state y s))) (-1) 1])
    /\ (forall out, fst (trajectory cfg initial_state y s) = inr out ->
        length xs = Z.to_nat (T cfg)
        /\ tail = [Clamp (x_t (snd (trajectory cfg initial_state y s))) (-1) 1]
        /\ out = (clamp (unconditional_raw cfg s) (-1) 1,
                  clamp (x_t (snd (trajectory cfg initial_state y s))) (-1) 1)).
Proof.
  rewrite trajectory_unfold.
  destruct (guided_loop_calls y (reverse (range 0 (T cfg))) (entering cfg s))
    as (xs & Hcalls & _ & Hlen & Hhd).
  rewrite entering_calls, entering_dpm_model in Hcalls.
  rewrite entering_x_t in Hhd.
  destruct (for_each _ _ _) as [[e|u] s']; simpl in *.
  - exists xs, []. rewrite Hcalls, app_nil_r, <- app_assoc.
    split; [done |]. split; [done |]. split; [by left | done].
  - exists xs, [Clamp (x_t s') (-1) 1].
    unfold record. cbn [calls x_t snd]. rewrite Hcalls, <- !app_assoc.
    split; [done |]. split; [done |]. split; [by right |].
    intros out [= <-]. destruct u.
    rewrite Hlen, reverse_range_length by done. done.
Qed.

(** ** Errors of the loop *)
Lemma for_each_error {A} (P : state (E:=E) -> Prop) (R : exn -> Prop)
    (l : list A) (body : A -> M unit) :
  (forall a s, P s -> P (snd (body a s))) ->
  (forall a s e, P s -> fst (body a s) = inl e -> R e) ->
  forall s e, P s -> fst (for_each l body s) = inl e -> R e.
Proof.
  intros Hinv Herr. induction l as [|a l IH]; intros s e Hs; simpl; [done |].
  unfold bind. specialize (Hinv a s Hs). specialize (Herr a s).
  destruct (body a s) as [[e'|u] s']; simpl in *.
  - intros [= <-]. by apply Herr.
  - by apply IH.
Qed.

Lemma guided_step_named y j s :
  named_in initial_state s ->
  named_in initial_state (snd (guided_step cfg initial_state y j s)).
Proof. unfold named_in. by rewrite guided_step_names. Qed.

Lemma trajectory_named y s :
  named_in initial_state s ->
  named_in initial_state (snd (trajectory cfg initial_state y s)).
Proof. unfold named_in. by rewrite trajectory_names. Qed.

Lemma guided_step_raises y j s e :
  named_in initial_state s ->
  fst (guided_step cfg initial_state y j s) = inl e ->
  exists msg, e = AssertionError msg.
Proof.
  intros Hnamed He. pose proof (guided_step_named y j s Hnamed) as Hnamed'.
  rewrite guided_step_state in Hnamed'. rewrite guided_step_unfold in He.
  apply update_checker_error in He
      as [(name & p & r & _ & _ & _ & ->)|(name & p & Hin & Hnone & _)].
  - eauto.
  - destruct (Hnamed' name) as [r Hr]; [| congruence].
    apply list_elem_of_fmap. by exists (name, p).
Qed.

Lemma trajectory_raises y s e :
  named_in initial_state s ->
  fst (trajectory cfg initial_state y s) = inl e ->
  exists msg, e = AssertionError msg.
Proof.
  intros Hnamed. rewrite trajectory_unfold.
  pose proof (for_each_error (named_in initial_state)
                (fun e => exists msg, e = AssertionError msg)
                (reverse (range 0 (T cfg))) (guided_step cfg initial_state y)
                (guided_step_named y) (guided_step_raises y)
                (entering cfg s) e) as Hloop.
  destruct (for_each _ _ _) as [[e'|u] s']; simpl in *; [| done].
  intros [= <-]. apply Hloop; [| done].
  unfold named_in. by rewrite entering_seg_model.
Qed.

Lemma train_raises train_data s e :
  named_in initial_state s ->
  fst (train cfg initial_state train_data s) = inl e ->
  exists msg, e = AssertionError msg.
Proof.
  unfold train.
  apply (for_each_error (named_in initial_state)
           (fun e => exists msg, e = AssertionError msg)).
  - intros epoch s1. apply for_each_invariant. intros xy s2 Hs2. unfold bind.
    pose proof (trajectory_named xy.2 s2 Hs2).
    by destruct (trajectory _ _ _ _) as [[e'|out] s3].
  - intros epoch s1 e1.
    apply (for_each_error (named_in initial_state)
             (fun e => exists msg, e = AssertionError msg)).
    + intros xy s2 Hs2. unfold bind.
      pose proof (trajectory_named xy.2 s2 Hs2).
      by destruct (trajectory _ _ _ _) as [[e'|out] s3].
    + intros xy s2 e2 Hs2. unfold bind.
      pose proof (trajectory_raises xy.2 s2 e2 Hs2) as Htr.
      destruct (trajectory _ _ _ _) as [[e'|out] s3]; simpl in *; [| done].
      intros [= <-]. by apply Htr.
Qed.

(** With the constants of the script the guided loop visits 299, ..., 0. *)
Example script_timesteps :
  length (reverse (range 0 (T script_config))) = 300%nat
  /\ reverse (range 0 (T script_config)) !! 0%nat = Some 299%Z
  /\ reverse (range 0 (T script_config)) !! 299%nat = Some 0%Z.
Proof.
  split; [apply reverse_range_length |].
  split; apply reverse_range_lookup; simpl; lia.
Qed.

(** ** The claims about one guided step *)

(** C1. Every guided step leaves [x_t = (mean + gradient) + std * noise]:
    [(mean, std, noise)] is what the one [reverse_sample_typeII] call of
    the step returns at the old [(x_t, j)], and [gradient] is the
    gradient of [- strength * loss] taken at the clamped estimate
    [x_0_t] as a leaf, for the parameters the optimizer has just
    produced.  The parameter gradients are those of the first loss
    alone, and the diffusion model is the one the step started with. *)
Theorem guided_step_next_x_t y j s :
  let s' := snd (guided_step cfg initial_state y j s) in
  let tII := reverse_sample_typeII E (x_t s) j (dpm_model s) "gaussian"
                                   (generator s) in
  let mean := fst (fst (fst tII)) in
  let std := snd (fst (fst tII)) in
  let noise := snd (fst tII) in
  let x_in := clamp (reverse_skip E (x_t s) j (dpm_model s)) 0 1 in
  let gradient :=
    grad_input E (fun x => fmul (Real (- strength cfg))
                                (loss_of y (seg_model s') x)) x_in in
  x_t s' = tadd (tadd mean gradient) (scale std noise)
  /\ generator s' = snd tII
  /\ calls s' = calls s ++ step_calls (dpm_model s) (x_t s) j
  /\ phases (step_calls (dpm_model s) (x_t s) j) = [GUIDED_STEP j]
  /\ seg_grad s' = loss_gradients y j s
  /\ dpm_model s' = dpm_model s.
Proof.
  cbv zeta. rewrite guided_step_state.
  split; [apply advanced_x_t |].
  split; [apply advanced_generator |].
  split; [apply advanced_calls |].
  split; [reflexivity |].
  split; [apply advanced_seg_grad | apply advanced_dpm_model].
Qed.

(** C10. Within a guided step the segmentation parameters change by one
    Adam update, fed with the gradient of this timestep's loss only:
    whatever the gradient buffers held on entry has no influence, and
    after the step they hold exactly that gradient, the guidance
    gradient having added nothing to them. *)
Theorem parameters_change_by_one_update y j s :
  let s' := snd (guided_step cfg initial_state y j s) in
  let grads :=
    grad_params E (fun params => loss_of y params (x_0_hat s j)) (seg_model s) in
  let updated :=
    Adam.step_all (sqrt E) (lr cfg) grads (seg_model s) (optimizer s) in
  seg_model s' = fst updated
  /\ optimizer s' = snd updated
  /\ seg_grad s' = grads
  /\ (forall stale : gmap string tensor,
        snd (guided_step cfg initial_state y j (set_seg_grad stale s)) = s').
Proof.
  cbv zeta. rewrite guided_step_state.
  split; [apply advanced_seg_model |].
  split; [apply advanced_optimizer |].
  split; [apply advanced_seg_grad |].
  intros stale. by rewrite guided_step_state.
Qed.

(** C4, as the script has it.  A guided step returns normally exactly
    when every parameter, after this step's update, is not [allclose] to
    (and so not [equal] to) its entry in [initial_state], the clone taken
    once when the checkpoint is loaded; the check runs in every step, on
    the parameters just updated, and the step raises otherwise: an
    [AssertionError] whenever every parameter has its entry. *)
Theorem update_checker_every_step y j s :
  let r := guided_step cfg initial_state y j s in
  (fst r = inr tt <-> all_updated initial_state (seg_model (snd r)))
  /\ seg_model (snd r)
     = fst (Adam.step_all (sqrt E) (lr cfg) (loss_gradients y j s)
                          (seg_model s) (optimizer s))
  /\ (forall e, named_in initial_state s -> fst r = inl e ->
       exists msg, e = AssertionError msg).
Proof.
  cbv zeta. split; [| split].
  - rewrite guided_step_state, guided_step_unfold. apply update_checker_ok.
  - rewrite guided_step_state. apply advanced_seg_model.
  - intros e Hnamed He. by eapply guided_step_raises.
Qed.

(** ** The claims about one trajectory *)

(** C3. Every trajectory makes exactly one unconditional pass, first, and
    then guided steps along [T - 1, T - 2, ..., 0] in this order, none
    skipped or repeated: the timesteps visited are the first [k] of that
    countdown, which has [T] entries, the [i]-th being [T - 1 - i].  When
    the trajectory runs to its end (no assertion stopped it) [k = T], and
    its conditional output is the last [x_t] clamped to [[-1, 1]]. *)
Theorem trajectory_phases y s :
  let r := trajectory cfg initial_state y s in
  exists new k,
    calls (snd r) = calls s ++ new
    /\ phases new
       = UNCONDITIONAL_PASS
           :: map GUIDED_STEP (take k (reverse (range 0 (T cfg))))
    /\ length (reverse (range 0 (T cfg))) = Z.to_nat (T cfg)
    /\ (forall i, (i < Z.to_nat (T cfg))%nat ->
         reverse (range 0 (T cfg)) !! i = Some (T cfg - 1 - Z.of_nat i)%Z)
    /\ (forall out, fst r = inr out ->
         k = Z.to_nat (T cfg)
         /\ out.2 = clamp (x_t (snd r)) (-1) 1
         /\ clamped_to (-1) 1 out.2).
Proof.
  cbv zeta.
  destruct (trajectory_calls y s) as (xs & tail & Hcalls & _ & Htail & Hdone).
  eexists. exists (length xs). split; [exact Hcalls |].
  split.
  { unfold phases at 1. rewrite omap_app. cbn [omap app option_bind].
    rewrite omap_app. fold (phases (concat (zip_with
      (step_calls (dpm_model s)) xs (reverse (range 0 (T cfg)))))).
    rewrite phases_blocks. f_equal.
    destruct Htail as [-> | ->]; cbn [omap option_bind]; by rewrite app_nil_r. }
  split; [apply reverse_range_length |].
  split; [apply reverse_range_lookup |].
  intros out Hout. destruct (Hdone out Hout) as (Hlen & _ & ->).
  split; [done |]. split; [done | by apply torch_facts.clamp_clamped_to].
Qed.

(** C5. In a trajectory that runs to its end the clamps are: one to
    [[-1, 1]] on the output of the unconditional pass, one to [[0, 1]]
    per guided step on the output of [reverse_skip], which is what the
    segmentation network is fed, and one to [[-1, 1]] on the last
    [x_t].  The [x_t] handed from one step to the next passes through
    no clamp. *)
Theorem clamps_of_a_trajectory y s out :
  fst (trajectory cfg initial_state y s) = inr out ->
  let s' := snd (trajectory cfg initial_state y s) in
  let noise := fst (torch_randn E (generator s)) in
  exists xs new,
    length xs = Z.to_nat (T cfg)
    /\ calls s' = calls s ++ new
    /\ new = [Randn noise;
              ReverseIterate noise (T cfg - 1) (dpm_model s);
              Clamp (unconditional_raw cfg s) (-1) 1]
             ++ concat (zip_with (step_calls (dpm_model s)) xs
                                 (reverse (range 0 (T cfg))))
             ++ [Clamp (x_t s') (-1) 1]
    /\ clamp_bounds new
       = (-1, 1) :: replicate (Z.to_nat (T cfg)) (0, 1) ++ [(-1, 1)]
    /\ out = (clamp (unconditional_raw cfg s) (-1) 1, clamp (x_t s') (-1) 1)
    /\ clamped_to (-1) 1 out.1
    /\ clamped_to (-1) 1 out.2
    /\ Forall (clamped_to 0 1) (seg_inputs new)
    /\ (forall j s0,
         let s1 := snd (guided_step cfg initial_state y j s0) in
         let tII := reverse_sample_typeII E (x_t s0) j (dpm_model s0)
                                          "gaussian" (generator s0) in
         x_t s1
         = tadd (tadd (fst (fst (fst tII)))
                      (guidance_gradient cfg y j (seg_model s1) s0))
                (scale (snd (fst (fst tII))) (snd (fst tII)))).
Proof.
  intros Hout. cbv zeta.
  destruct (trajectory_calls y s) as (xs & tail & Hcalls & _ & _ & Hdone).
  destruct (Hdone out Hout) as (Hlen & -> & ->).
  exists xs. eexists. split; [exact Hlen |].
  split; [exact Hcalls |]. split; [reflexivity |].
  split.
  { unfold clamp_bounds at 1. rewrite omap_app. cbn [omap app option_bind].
    rewrite omap_app. fold (clamp_bounds (concat (zip_with
      (step_calls (dpm_model s)) xs (reverse (range 0 (T cfg)))))).
    rewrite clamp_bounds_blocks by (by rewrite reverse_range_length).
    by rewrite reverse_range_length. }
  split; [reflexivity |].
  split; [by apply torch_facts.clamp_clamped_to |].
  split; [by apply torch_facts.clamp_clamped_to |].
  split.
  { unfold seg_inputs at 1. rewrite omap_app. cbn [omap app option_bind].
    rewrite omap_app. cbn [omap app option_bind]. rewrite app_nil_r.
    apply seg_inputs_blocks. }
  intros j s0. cbv zeta. rewrite guided_step_state. apply advanced_x_t.
Qed.

(** C9. With [T >= 1], the one noise tensor drawn for the example is the
    input of [reverse_iterate] and also the [x_t] that the first guided
    step, at timestep [T - 1], hands to [reverse_skip]; no other draw is
    made by the loop itself. *)
Theorem shared_initial_noise y s :
  (1 <= T cfg)%Z ->
  let s' := snd (trajectory cfg initial_state y s) in
  let noise := fst (torch_randn E (generator s)) in
  exists rest,
    calls s' = calls s ++ Randn noise
                 :: ReverseIterate noise (T cfg - 1) (dpm_model s)
                 :: Clamp (unconditional_raw cfg s) (-1) 1
                 :: ReverseSkip noise (T cfg - 1) (dpm_model s)
                 :: rest
    /\ noise_draws rest = [].
Proof.
  intros HT. cbv zeta.
  destruct (trajectory_calls y s) as (xs & tail & Hcalls & Hhd & Htail & _).
  pose proof (reverse_range_lookup (T cfg) 0 ltac:(lia)) as Hfirst.
  replace (T cfg - 1 - Z.of_nat 0)%Z with (T cfg - 1)%Z in Hfirst by lia.
  destruct (reverse (range 0 (T cfg))) as [|j l] eqn:Hl; [done |].
  injection Hfirst as ->.
  destruct xs as [|x xs]; [by specialize (Hhd ltac:(done)) |].
  specialize (Hhd ltac:(done)). injection Hhd as ->.
  exists (tl (step_calls (dpm_model s) (fst (torch_randn E (generator s)))
                         (T cfg - 1))
          ++ concat (zip_with (step_calls (dpm_model s)) xs l) ++ tail).
  split; [by rewrite Hcalls |].
  unfold noise_draws. rewrite !omap_app.
  fold (noise_draws (concat (zip_with (step_calls (dpm_model s)) xs l))).
  rewrite noise_draws_blocks. by destruct Htail as [-> | ->].
Qed.
End Facts.

Lemma dict_of_lookup (items : list (string * tensor)) name :
  name ∈ items.*1 -> is_Some (dict_of items !! name).
Proof.
  unfold dict_of.
  assert (Hgen : forall (m : gmap string tensor),
             name ∈ items.*1 \/ is_Some (m !! name) ->
             is_Some (foldl (fun m kv => <[kv.1:=kv.2]> m) m items !! name)).
  { induction items as [|[k v] items IH]; intros m [Hin | Hm]; simpl.
    - by apply elem_of_nil in Hin.
    - done.
    - apply IH. simpl in Hin. apply elem_of_cons in Hin as [-> | Hin]; [right | by left].
      rewrite lookup_insert_eq. eauto.
    - apply IH. right. destruct (decide (k = name)) as [-> | Hne].
      + rewrite lookup_insert_eq. eauto.
      + by rewrite lookup_insert_ne. }
  intros Hin. apply Hgen. by left.
Qed.
(** ** The claims about the whole run *)

(** C8. The diffusion model is never written: a guided step, a trajectory
    and the whole run end with the diffusion model they started with, and
    every sampler call in between was handed that same model.  What the
    loop does write is the segmentation side and the trajectory. *)
Theorem diffusion_model_frozen {E : env} (cfg : config) :
  (forall init y j (s : state (E:=E)),
      continues s (snd (guided_step cfg init y j s)))
  /\ (forall init y (s : state (E:=E)),
        continues s (snd (trajectory cfg init y s)))
  /\ (forall train_data (loaded : state (E:=E)),
        let final := snd (main cfg train_data loaded) in
        dpm_model final = dpm_model loaded
        /\ exists new,
             calls final = calls loaded ++ new
             /\ Forall (fun c => forall d, call_model c = Some d ->
                                           d = dpm_model loaded) new).
Proof.
  split; [| split].
  - intros. apply guided_step_continues.
  - intros. apply trajectory_continues.
  - intros train_data loaded. apply train_continues.
Qed.

(** C2. At [t = 0] the modelled [reverse_sample_typeII] returns a standard
    deviation of 0 for every image, denoiser, schedule and generator; with
    it as the sampler, the guided step at timestep 0 ends in
    [mean + gradient] whatever finite noise was drawn. *)
Theorem terminal_step_has_no_noise {E : env} (cfg : config)
    (init : gmap string tensor)
    (model : Denoiser E -> tensor -> Z -> tensor)
    (posterior_mean : list Q -> Z -> tensor -> tensor -> tensor)
    (posterior_std : list Q -> Z -> fval)
    (randn_like : tensor -> Rng E -> tensor * Rng E) (betas : list Q) :
  (forall x_t denoiser output_type rng,
      snd (fst (fst (diffusion_sampler.reverse_sample_typeII
                       model posterior_mean posterior_std randn_like betas
                       x_t 0 denoiser output_type rng))) = Real 0)
  /\ (reverse_sample_typeII E
      = diffusion_sampler.reverse_sample_typeII
          model posterior_mean posterior_std randn_like betas ->
      forall y (s : state (E:=E)),
        let s' := snd (guided_step cfg init y 0 s) in
        let tII := reverse_sample_typeII E (x_t s) 0 (dpm_model s) "gaussian"
                                         (generator s) in
        let mean := fst (fst (fst tII)) in
        let noise := snd (fst tII) in
        let gradient := guidance_gradient cfg y 0 (seg_model s') s in
        Forall (fun v => isfinite v = true) noise ->
        length noise = length (tadd mean gradient) ->
        teq (x_t s') (tadd mean gradient)).
Proof.
  assert (Hstd : forall x_t denoiser output_type rng,
             snd (fst (fst (diffusion_sampler.reverse_sample_typeII
                              model posterior_mean posterior_std randn_like betas
                              x_t 0 denoiser output_type rng))) = Real 0).
  { intros x_t denoiser output_type rng.
    unfold diffusion_sampler.reverse_sample_typeII.
    by destruct (randn_like x_t rng) as [noise rng']. }
  split; [exact Hstd |].
  intros Hsampler y s. cbv zeta. rewrite guided_step_state, advanced_x_t.
  cbv zeta. rewrite Hsampler, Hstd. rewrite <- Hsampler.
  intros Hfin Hlen. by apply torch_facts.tadd_scale_zero.
Qed.
End trainer_facts.

(** * The loop on the small environment *)
Module toy_facts.
Import trainer toy trainer_facts.

(** A trajectory of two guided steps runs to its end. *)
Example two_steps_complete :
  exists out, fst (trajectory (E:=toy_env) (toy_config 2) w0 1%Z (loaded two_steps)) = inr out.
Proof. eexists. vm_compute. reflexivity. Qed.

(** After a guided step the trajectory state may lie outside [[-1, 1]]. *)
Example x_t_leaves_the_unit_range :
  exists q,
    x_t (snd (guided_step (E:=toy_env) (toy_config 1) w0 1%Z 0 (at_image [Real 1] [[Real 3]])))
    = [Real q]
    /\ 1 < q.
Proof. eexists. split; [vm_compute; reflexivity | reflexivity]. Qed.

(** The last step of a one-step trajectory, with the noise sample 3 drawn
    and discarded. *)
Lemma terminal_step_has_no_noise_witness :
  let s := at_image [Real 1] [[Real 3]] in
  let s' := snd (guided_step (E:=toy_env) (toy_config 1) w0 1%Z 0 s) in
  let tII := reverse_sample_typeII toy_env (x_t s) 0 (dpm_model s) "gaussian"
                                   (generator s) in
  teq (x_t s')
      (tadd (fst (fst (fst tII)))
            (guidance_gradient (E:=toy_env) (toy_config 1) 1%Z 0 (seg_model s') s)).
Proof.
  apply (proj2 (terminal_step_has_no_noise (E:=toy_env) (toy_config 1) w0
                  (fun d x t => d) (fun betas t x e => x)
                  (fun betas t => Real 1) (fun x g => draw g) [])).
  - reflexivity.
  - vm_compute. repeat constructor.
  - vm_compute. reflexivity.
Defined.

(** Two guided steps: the pass, then timesteps 1 and 0. *)
Lemma trajectory_phases_witness :
  exists out new,
    fst (trajectory (E:=toy_env) (toy_config 2) w0 1%Z (loaded two_steps)) = inr out
    /\ calls (snd (trajectory (E:=toy_env) (toy_config 2) w0 1%Z (loaded two_steps)))
       = calls (loaded two_steps) ++ new
    /\ phases new = [UNCONDITIONAL_PASS; GUIDED_STEP 1; GUIDED_STEP 0]
    /\ out.2 = clamp (x_t (snd (trajectory (E:=toy_env) (toy_config 2) w0 1%Z
                                           (loaded two_steps)))) (-1) 1.
Proof.
  destruct two_steps_complete as [out Hout]. exists out.
  destruct (trajectory_phases (E:=toy_env) (toy_config 2) w0 1%Z (loaded two_steps))
    as (new & k & Hcalls & Hphases & _ & _ & Hdone).
  destruct (Hdone out Hout) as (-> & Hclamp & _).
  exists new. split; [exact Hout |]. split; [exact Hcalls |].
  split; [exact Hphases | exact Hclamp].
Defined.

(** Two guided steps: four clamps. *)
Lemma clamps_of_a_trajectory_witness :
  exists out new,
    fst (trajectory (E:=toy_env) (toy_config 2) w0 1%Z (loaded two_steps)) = inr out
    /\ calls (snd (trajectory (E:=toy_env) (toy_config 2) w0 1%Z (loaded two_steps)))
       = calls (loaded two_steps) ++ new
    /\ clamp_bounds new = [(-1, 1); (0, 1); (0, 1); (-1, 1)]
    /\ Forall (clamped_to 0 1) (seg_inputs new).
Proof.
  destruct two_steps_complete as [out Hout]. exists out.
  destruct (clamps_of_a_trajectory (E:=toy_env) (toy_config 2) w0 1%Z (loaded two_steps)
              out Hout)
    as (xs & new & _ & Hcalls & _ & Hbounds & _ & _ & _ & Hseg & _).
  exists new. split; [exact Hout |]. split; [exact Hcalls |].
  split; [exact Hbounds | exact Hseg].
Defined.

(** The sample 1 goes to [reverse_iterate] and to the first [reverse_skip]. *)
Lemma shared_initial_noise_witness :
  exists rest,
    calls (snd (trajectory (E:=toy_env) (toy_config 2) w0 1%Z (loaded two_steps)))
    = [@Randn toy_env [Real 1];
       @ReverseIterate toy_env [Real 1] 1 [Real 0];
       @Clamp toy_env [Real (2 * 1)] (-1) 1;
       @ReverseSkip toy_env [Real 1] 1 [Real 0]] ++ rest
    /\ noise_draws rest = [].
Proof.
  destruct (shared_initial_noise (E:=toy_env) (toy_config 2) w0 1%Z (loaded two_steps))
    as (rest & Hcalls & Hdraws); [simpl; lia |].
  exists rest. split; [exact Hcalls | exact Hdraws].
Defined.

Lemma w0_names (x : tensor) (g : list tensor) : named_in w0 (at_image x g).
Proof. intros name. apply dict_of_lookup. Qed.

(** A step from the image 1 moves the weight and passes; a step from the
    image 1/2 has a zero gradient, leaves the weight at its loaded value
    and raises. *)
Lemma update_checker_every_step_witness :
  all_updated w0
    (seg_model (snd (guided_step (E:=toy_env) (toy_config 1) w0 1%Z 0
                                 (at_image [Real 1] [[Real 3]]))))
  /\ (exists msg,
        AssertionError "Parameter w was not updated!" = AssertionError msg).
Proof.
  split.
  - apply (proj1 (update_checker_every_step (E:=toy_env) (toy_config 1) w0 1%Z 0
                    (at_image [Real 1] [[Real 3]]))).
    vm_compute. reflexivity.
  - apply (proj2 (proj2 (update_checker_every_step (E:=toy_env) (toy_config 1) w0 1%Z 0
                           (at_image [Real (1 # 2)] [[Real 3]])))).
    + apply w0_names.
    + vm_compute. reflexivity.
Defined.

(** The numbers behind the stalled update: the two loss gradients are 1
    and -9/10, Adam's first moment is 0.1 after the first update and 0
    after the second, and the weight, once moved away from its loaded
    value 0, stays where it is. *)
Example stall_trace :
  let first := trajectory (E:=toy_env) (toy_config 1) w0 1%Z (loaded two_examples) in
  let second := trajectory (E:=toy_env) (toy_config 1) w0 1%Z (snd first) in
  let grad s := default [] (loss_gradients (E:=toy_env) 1%Z 0 s !! "w"%string) in
  let moment s := default [] (Adam.exp_avg <$> optimizer s !! "w"%string) in
  let w s := default [] (snd <$> seg_model s !! 0%nat) in
  equal (grad (entering (toy_config 1) (loaded two_examples))) [Real 1] = true
  /\ equal (grad (entering (toy_config 1) (snd first))) [Real (- 9 # 10)] = true
  /\ equal (moment (snd first)) [Real (1 # 10)] = true
  /\ equal (moment (snd second)) [Real 0] = true
  /\ allclose (w (snd first)) [Real 0] = false
  /\ equal (w (snd second)) (w (snd first)) = true.
Proof. cbv zeta. repeat split; vm_compute; reflexivity. Qed.

(** C4 as worded fails: with one guided step per trajectory, the second
    trajectory runs to its end although its update leaves the weight at
    the value it had before that trajectory.  The gradient of the second
    example cancels Adam's first moment; the checker still passes because
    it compares with the loaded value. *)
Lemma second_trajectory_can_stall :
  let first := trajectory (E:=toy_env) (toy_config 1) w0 1%Z (loaded two_examples) in
  let second := trajectory (E:=toy_env) (toy_config 1) w0 1%Z (snd first) in
  (exists out, fst first = inr out)
  /\ (exists out, fst second = inr out)
  /\ main (E:=toy_env) (toy_config 1) [([], 1%Z); ([], 1%Z)] (loaded two_examples)
     = (inr tt, snd second)
  /\ ~ all_differ (seg_model (snd first)) (seg_model (snd second)).
Proof.
  cbv zeta.
  split; [eexists; vm_compute; reflexivity |].
  split; [eexists; vm_compute; reflexivity |].
  split; [vm_compute; reflexivity |].
  intros Hdiffer. vm_compute in Hdiffer.
  inversion Hdiffer as [|b a before after [_ Hne] _]; subst. discriminate.
Qed.
End toy_facts.

(** * Facts about the rest of the script *)
Module driver_facts.
Import trainer trainer_facts driver.

Section Plots.
Context {E : env}.
Variable cfg : config.
Variable initial_state : gmap string tensor.
Implicit Types s : state (E:=E).

Lemma examples_run data step s d :
  (0 < T cfg)%Z ->
  (examples cfg initial_state data step s d).1
  = (lift (fst (inner cfg initial_state data s)), snd (inner cfg initial_state data s)).
Proof.
  intros HT. unfold inner. revert step s d.
  induction data as [|[x y] data IH]; intros step s d; [done |].
  cbn [examples for_each snd]. unfold bind, ret.
  destruct (trajectory cfg initial_state y s) as [[e|im] s']; [reflexivity |].
  destruct (Z.leb_spec (T cfg) 0) as [Hle|_]; [lia |].
  exact (IH (S step) s' _).
Qed.

Lemma examples_checkpoints data step s d :
  checkpoints (examples cfg initial_state data step s d).2 = checkpoints d.
Proof.
  revert step s d. induction data as [|[x y] data IH]; intros step s d; [done |].
  cbn [examples].
  destruct (trajectory cfg initial_state y s) as [[e|im] s']; [done |].
  destruct (T cfg <=? 0)%Z; [done |]. by rewrite IH.
Qed.

Lemma examples_plot_names data step s d :
  (examples cfg initial_state data step s d).1.1 = inr tt ->
  (plots (examples cfg initial_state data step s d).2).*1
  = (plots d).*1
    ++ ((fun k => ("st" ++ pretty k)%string) <$> seq step (length data)).
Proof.
  revert step s d. induction data as [|[x y] data IH]; intros step s d.
  { intros _. cbn. by rewrite app_nil_r. }
  cbn [examples].
  destruct (trajectory cfg initial_state y s) as [[e|im] s']; [done |].
  destruct (T cfg <=? 0)%Z; [done |].
  intros Hok. rewrite (IH _ _ _ Hok). cbn [image_saver plots length seq fmap list_fmap].
  by rewrite fmap_app, <- app_assoc.
Qed.

(** Every plot shows two images clamped to [[-1, 1]]. *)
Lemma examples_plots_clamped data step s d :
  Forall (fun p => clamped_to (-1) 1 p.2.1 /\ clamped_to (-1) 1 p.2.2) (plots d) ->
  Forall (fun p => clamped_to (-1) 1 p.2.1 /\ clamped_to (-1) 1 p.2.2)
         (plots (examples cfg initial_state data step s d).2).
Proof.
  revert step s d. induction data as [|[x y] data IH]; intros step s d Hd; [done |].
  cbn [examples].
  destruct (trajectory_calls cfg initial_state y s)
    as (xs & tail & _ & _ & _ & Hdone).
  destruct (trajectory cfg initial_state y s) as [[e|im] s']; [done |].
  destruct (T cfg <=? 0)%Z; [done |].
  apply IH. cbn [image_saver plots]. apply Forall_app. split; [done |].
  constructor; [| constructor]. destruct (Hdone im eq_refl) as (_ & _ & ->).
  cbn [fst snd]. split; by apply torch_facts.clamp_clamped_to.
Qed.

Lemma epochs_run n data s d :
  (0 < T cfg)%Z ->
  forall a,
  (epochs cfg initial_state n data s d).1
  = (lift (fst (for_each (seq a n) (fun _ => inner cfg initial_state data) s)),
     snd (for_each (seq a n) (fun _ => inner cfg initial_state data) s)).
Proof.
  intros HT. revert s d. induction n as [|n IH]; intros s d a; [done |].
  cbn [epochs seq for_each]. unfold bind.
  pose proof (examples_run data 0 s d HT) as Hex.
  destruct (examples cfg initial_state data 0 s d) as [[r s1] d1].
  cbn [fst] in Hex. injection Hex as -> ->.
  destruct (inner cfg initial_state data s) as [[e|[]] s2]; cbn [lift fst snd]; [done |].
  apply IH.
Qed.


Lemma epochs_complete n data s d :
  (epochs cfg initial_state n data s d).1.1 = inr tt ->
  (plots (epochs cfg initial_state n data s d).2).*1
  = (plots d).*1 ++ concat (replicate n (plot_names (length data)))
  /\ (n <> 0%nat ->
      checkpoints (epochs cfg initial_state n data s d).2
      = <[(ckpt_path ++ "pretrained_seg_octa500.pt")%string
          := seg_model (epochs cfg initial_state n data s d).1.2]>
          (checkpoints d)).
Proof.
  revert s d. induction n as [|n IH]; intros s d.
  { intros _. cbn. by rewrite app_nil_r. }
  cbn [epochs].
  pose proof (examples_checkpoints data 0 s d) as Hck.
  pose proof (examples_plot_names data 0 s d) as Hnames.
  destruct (examples cfg initial_state data 0 s d) as [[[e1|[]] s1] d1]; [done |].
  cbn [fst snd] in Hck, Hnames. specialize (Hnames eq_refl).
  intros Hok. destruct (IH _ _ Hok) as [Hplots Hckpt]. split.
  - rewrite Hplots. cbn [torch_save plots replicate concat].
    rewrite Hnames. by rewrite <- app_assoc.
  - intros _. destruct n as [|n].
    + cbn [epochs torch_save checkpoints fst snd]. by rewrite Hck.
    + rewrite Hckpt by done. cbn [torch_save checkpoints].
      rewrite insert_insert_eq. by rewrite Hck.
Qed.
Lemma epochs_plots_clamped n data s d :
  Forall (fun p => clamped_to (-1) 1 p.2.1 /\ clamped_to (-1) 1 p.2.2) (plots d) ->
  Forall (fun p => clamped_to (-1) 1 p.2.1 /\ clamped_to (-1) 1 p.2.2)
         (plots (epochs cfg initial_state n data s d).2).
Proof.
  revert s d. induction n as [|n IH]; intros s d Hd; [done |].
  cbn [epochs].
  pose proof (examples_plots_clamped data 0 s d Hd) as Hex.
  destruct (examples cfg initial_state data 0 s d) as [[[e|u] s1] d1]; [done |].
  apply IH. exact Hex.
Qed.


End Plots.
End driver_facts.

Module loop_facts.
Import trainer trainer_facts driver.

Section Loops.
Context {E : env}.
Variable cfg : config.
Variable initial_state : gmap string tensor.
Implicit Types s : state (E:=E).

(** A loop over [g a] is the loop over the mapped list. *)
Lemma for_each_fmap {A B} (g : A -> B) (body : B -> M (E:=E) unit) (l : list A) s :
  for_each l (fun a => body (g a)) s = for_each (g <$> l) body s.
Proof.
  revert s. induction l as [|a l IH]; intros s; [done |].
  cbn [for_each fmap list_fmap]. unfold bind.
  destruct (body (g a) s) as [[e|u] s']; [done | apply IH].
Qed.

Lemma for_each_ext {A} (f g : A -> M (E:=E) unit) (l : list A) s :
  (forall a s', f a s' = g a s') -> for_each l f s = for_each l g s.
Proof.
  intros Hfg. revert s. induction l as [|a l IH]; intros s; [done |].
  cbn [for_each]. unfold bind. rewrite Hfg.
  destruct (g a s) as [[e|u] s']; [done | apply IH].
Qed.

Lemma for_each_append {A B} (f : state (E:=E) -> list B) (blk : list B)
    (l : list A) (body : A -> M (E:=E) unit) :
  (forall a s, fst (body a s) = inr tt -> f (snd (body a s)) = f s ++ blk) ->
  forall s, fst (for_each l body s) = inr tt ->
            f (snd (for_each l body s)) = f s ++ concat (replicate (length l) blk).
Proof.
  intros Hbody. induction l as [|a l IH]; intros s; cbn [for_each length].
  { intros _. cbn. by rewrite app_nil_r. }
  unfold bind. specialize (Hbody a s).
  destruct (body a s) as [[e|[]] s']; cbn [fst snd] in *; [done |].
  intros Hok. rewrite (IH s' Hok), Hbody by done.
  cbn [replicate concat]. by rewrite <- app_assoc.
Qed.

Lemma timesteps_blocks (d : Denoiser E) xs l :
  timesteps (concat (zip_with (step_calls d) xs l)) = take (length xs) l.
Proof.
  revert l. induction xs as [|x xs IH]; intros [|j l]; cbn; try done.
  f_equal. apply IH.
Qed.

Lemma trajectory_timesteps y s out :
  fst (trajectory cfg initial_state y s) = inr out ->
  timesteps (calls (snd (trajectory cfg initial_state y s)))
  = timesteps (calls s) ++ reverse (range 0 (T cfg)).
Proof.
  intros Hout.
  destruct (trajectory_calls cfg initial_state y s)
    as (xs & tail & Hcalls & _ & _ & Hdone).
  destruct (Hdone out Hout) as (Hlen & -> & _).
  rewrite Hcalls. unfold timesteps. rewrite !omap_app.
  fold (timesteps (concat (zip_with (step_calls (dpm_model s)) xs
                                    (reverse (range 0 (T cfg)))))).
  rewrite timesteps_blocks, Hlen, <- reverse_range_length, firstn_all.
  cbn. by rewrite app_nil_r.
Qed.

(** X1: the update checker stops at the first parameter that is still
    close to its reference and names it in the message: the ones before
    it passed, the ones after it are not looked at. *)
Theorem update_checker_first_stale params s msg :
  fst (update_checker initial_state params s) = inl (AssertionError msg) ->
  exists before name p r after,
    params = before ++ (name, p) :: after
    /\ all_updated initial_state before
    /\ initial_state !! name = Some r
    /\ allclose p r = true
    /\ msg = ("Parameter " ++ name ++ " was not updated!")%string.
Proof.
  induction params as [|[name p] rest IH]; cbn [update_checker]; [done |].
  destruct (initial_state !! name) as [r|] eqn:Hr; [| done].
  destruct (allclose p r) eqn:Hclose; cbn [negb].
  - intros [= <-]. exists [], name, p, r, rest.
    split; [done |]. split; [constructor | done].
  - intros Hrest. destruct (IH Hrest) as (before & n & q & r' & after & -> & Hb & H).
    exists ((name, p) :: before), n, q, r', after. split; [done |].
    split; [| exact H]. constructor; [| exact Hb].
    exists r. auto using torch_facts.not_allclose_not_equal.
Qed.

End Loops.

(** Parameters without a gradient are skipped by the optimizer. *)
Lemma step_all_no_grad sq l grads params st name p :
  (name, p) ∈ params -> grads !! name = None ->
  (name, p) ∈ fst (Adam.step_all sq l grads params st).
Proof.
  intros Hin Hnone. revert st.
  induction params as [|[k q] rest IH]; intros st; [by apply elem_of_nil in Hin |].
  cbn [Adam.step_all].
  apply elem_of_cons in Hin as [[= <- <-] | Hin].
  - rewrite Hnone. destruct (Adam.step_all sq l grads rest st) as [rest' st'].
    apply list_elem_of_here.
  - destruct (grads !! k) as [g|].
    + destruct (Adam.update sq l (default (Adam.fresh q) (st !! k)) q g) as [q' s1].
      specialize (IH Hin (<[k:=s1]> st)).
      destruct (Adam.step_all sq l grads rest (<[k:=s1]> st)) as [rest' st'].
      by apply list_elem_of_further.
    + specialize (IH Hin st).
      destruct (Adam.step_all sq l grads rest st) as [rest' st'].
      by apply list_elem_of_further.
Qed.

Lemma dict_of_absent (items : list (string * tensor)) (m : gmap string tensor) name :
  name ∉ items.*1 ->
  foldl (fun m kv => <[kv.1:=kv.2]> m) m items !! name = m !! name.
Proof.
  revert m. induction items as [|[k v] items IH]; intros m Hnot; [done |].
  cbn [foldl]. cbn [fmap list_fmap fst] in Hnot.
  apply not_elem_of_cons in Hnot as [Hne Hnot].
  rewrite IH by done. cbn [fst snd]. by rewrite lookup_insert_ne.
Qed.

(** With distinct names the clone maps every name to its tensor. *)
Lemma dict_of_lookup_NoDup (items : list (string * tensor)) name p :
  NoDup items.*1 -> (name, p) ∈ items -> dict_of items !! name = Some p.
Proof.
  unfold dict_of. generalize (∅ : gmap string tensor).
  induction items as [|[k v] items IH]; intros m Hnd Hin;
    [by apply elem_of_nil in Hin |].
  cbn [fmap list_fmap fst] in Hnd. apply NoDup_cons in Hnd as [Hk Hnd].
  cbn [foldl fst snd].
  apply elem_of_cons in Hin as [[= <- <-] | Hin].
  - rewrite dict_of_absent by done. apply lookup_insert_eq.
  - by apply IH.
Qed.

Lemma allclose_refl (p : tensor) :
  Forall (fun v => isfinite v = true) p -> allclose p p = true.
Proof.
  unfold allclose. induction 1 as [|v p Hv _ IH]; [done |].
  cbn [all2]. rewrite IH, andb_true_r.
  destruct v as [q|]; [| done]. unfold isclose. cbn [feqb].
  by rewrite (proj2 (Qeq_bool_iff q q) (Qeq_refl q)).
Qed.

(** X2: a parameter the loss does not reach is caught at once: from the loaded
    state, with distinct parameter names, a finite parameter that gets no
    gradient makes the first guided step raise the [AssertionError]. *)
Theorem unreached_parameter_is_caught {E : env} (cfg : config)
    (y : Labels E) (j : Z) (s : state (E:=E)) name p :
  NoDup (seg_model s).*1 ->
  (name, p) ∈ seg_model s ->
  Forall (fun v => isfinite v = true) p ->
  loss_gradients y j s !! name = None ->
  exists msg,
    fst (guided_step cfg (dict_of (seg_model s)) y j s) = inl (AssertionError msg).
Proof.
  intros Hnd Hin Hfin Hnone.
  destruct (fst (guided_step cfg (dict_of (seg_model s)) y j s)) as [e|[]] eqn:Hr.
  - destruct (guided_step_raises cfg (dict_of (seg_model s)) y j s e) as [msg ->];
      [intros n; apply dict_of_lookup | done | eauto].
  - exfalso.
    rewrite guided_step_unfold in Hr. apply update_checker_ok in Hr.
    rewrite advanced_seg_model in Hr.
    pose proof (step_all_no_grad (sqrt E) (lr cfg) _ _ (optimizer s) name p
                  Hin Hnone) as Hkept.
    unfold all_updated in Hr. rewrite Forall_forall in Hr.
    destruct (Hr _ Hkept) as (r & Hlook & Hclose & _). cbn [fst snd] in *.
    rewrite (dict_of_lookup_NoDup _ _ _ Hnd Hin) in Hlook. injection Hlook as <-.
    rewrite allclose_refl in Hclose by done. discriminate.
Qed.
End loop_facts.

Module script_facts.
Import trainer trainer_facts driver driver_facts loop_facts.

(** The files do not feed back: with at least one timestep the script
    ends as [main] does, in the same state. *)
Lemma script_runs_main {E : env} (cfg : config)
    (train_data : list (tensor * Labels E)) (loaded : state (E:=E)) (d : disk) :
  (0 < T cfg)%Z ->
  (script cfg train_data loaded d).1
  = (lift (fst (main cfg train_data loaded)), snd (main cfg train_data loaded)).
Proof. intros HT. unfold script, main, train. by apply epochs_run. Qed.


(** X3: after a completed run of at least one epoch the checkpoint file
    holds the final segmentation parameters, and no other file of
    checkpoints was written. *)
Theorem checkpoint_of_a_completed_run {E : env} (cfg : config)
    (train_data : list (tensor * Labels E)) (loaded : state (E:=E)) (d : disk) :
  (script cfg train_data loaded d).1.1 = inr tt ->
  n_epoch cfg <> 0%nat ->
  checkpoints (script cfg train_data loaded d).2
  = <[(ckpt_path ++ "pretrained_seg_octa500.pt")%string
      := seg_model (script cfg train_data loaded d).1.2]> (checkpoints d).
Proof.
  intros Hok Hn. unfold script in *.
  by apply (epochs_complete cfg (dict_of (seg_model loaded))).
Qed.

(** X4: the plots of a completed run are named [st0], [st1], ... by the
    position of the example, and the same names come again in every
    epoch. *)
Theorem plot_names_repeat_every_epoch {E : env} (cfg : config)
    (train_data : list (tensor * Labels E)) (loaded : state (E:=E)) (d : disk) :
  (script cfg train_data loaded d).1.1 = inr tt ->
  (plots (script cfg train_data loaded d).2).*1
  = (plots d).*1
    ++ concat (replicate (n_epoch cfg) (plot_names (length train_data))).
Proof.
  intros Hok. unfold script in *.
  by apply (epochs_complete cfg (dict_of (seg_model loaded))).
Qed.


(** X6: both diffusion images of every plot are clamped to [[-1, 1]]. *)
Theorem plotted_images_are_clamped {E : env} (cfg : config)
    (train_data : list (tensor * Labels E)) (loaded : state (E:=E)) (d : disk) :
  Forall (fun p => clamped_to (-1) 1 p.2.1 /\ clamped_to (-1) 1 p.2.2) (plots d) ->
  Forall (fun p => clamped_to (-1) 1 p.2.1 /\ clamped_to (-1) 1 p.2.2)
         (plots (script cfg train_data loaded d).2).
Proof. apply epochs_plots_clamped. Qed.

(** X8: the images of [train_data] are never read: two data sets with the
    same labels give the same run. *)
Theorem main_ignores_images {E : env} (cfg : config)
    (data data' : list (tensor * Labels E)) (loaded : state (E:=E)) :
  data.*2 = data'.*2 ->
  main cfg data loaded = main cfg data' loaded.
Proof.
  intros Hlabels. unfold main, train. apply for_each_ext. intros epoch s.
  rewrite (for_each_fmap snd
             (fun y => bind (trajectory cfg (dict_of (seg_model loaded)) y)
                            (fun _ => ret tt)) data).
  rewrite (for_each_fmap snd
             (fun y => bind (trajectory cfg (dict_of (seg_model loaded)) y)
                            (fun _ => ret tt)) data').
  by rewrite Hlabels.
Qed.

(** X9: a completed run makes [n_epoch * len(train_data)] passes over the
    timesteps [T-1, ..., 0], in that order. *)
Theorem run_timesteps {E : env} (cfg : config)
    (train_data : list (tensor * Labels E)) (loaded : state (E:=E)) :
  fst (main cfg train_data loaded) = inr tt ->
  timesteps (calls (snd (main cfg train_data loaded)))
  = timesteps (calls loaded)
    ++ concat (replicate (n_epoch cfg)
                 (concat (replicate (length train_data)
                            (reverse (range 0 (T cfg)))))).
Proof.
  intros Hok. unfold main, train in *.
  set (initial_state := dict_of (seg_model loaded)) in *.
  assert (Hinner : forall (epoch : nat) s,
             fst (for_each train_data
                    (fun xy => bind (trajectory cfg initial_state (snd xy))
                                    (fun _ => ret tt)) s) = inr tt ->
             timesteps (calls (snd (for_each train_data
                    (fun xy => bind (trajectory cfg initial_state (snd xy))
                                    (fun _ => ret tt)) s)))
             = timesteps (calls s)
               ++ concat (replicate (length train_data)
                            (reverse (range 0 (T cfg))))).
  { intros _ s.
    apply (for_each_append (fun s => timesteps (calls s))
             (reverse (range 0 (T cfg)))).
    intros xy s'. unfold bind, ret.
    pose proof (trajectory_timesteps cfg initial_state xy.2 s') as Htr.
    destruct (trajectory cfg initial_state xy.2 s') as [[e|out] s'']; [done |].
    intros _. by apply (Htr out). }
  pose proof (for_each_append (fun s => timesteps (calls s)) _ _ _ Hinner
                loaded Hok) as Hrun.
  by rewrite length_seq in Hrun.
Qed.
End script_facts.

(** * Runs of the small environment through the whole script *)
Module toy_run_facts.
Import trainer toy driver toy_run script_facts loop_facts.



Lemma main_ignores_images_witness :
  main (E:=toy_env) (toy_config 1) [([Real 7], 1%Z); ([], 1%Z)] (loaded two_examples)
  = main (E:=toy_env) (toy_config 1) [([], 1%Z); ([], 1%Z)] (loaded two_examples).
Proof.
  apply (main_ignores_images (E:=toy_env) (toy_config 1)
           [([Real 7], 1%Z); ([], 1%Z)] [([], 1%Z); ([], 1%Z)]).
  reflexivity.
Defined.

Lemma run_timesteps_witness :
  timesteps (calls (snd (main (E:=toy_env) (toy_config 2) [([], 1%Z); ([], 1%Z)]
                              (loaded four_steps))))
  = [1; 0; 1; 0]%Z.
Proof.
  apply (run_timesteps (E:=toy_env) (toy_config 2) [([], 1%Z); ([], 1%Z)]
           (loaded four_steps)).
  vm_compute. reflexivity.
Defined.

Lemma update_checker_first_stale_witness :
  exists before name p r after,
    [("a"%string, [Real 1]); ("w"%string, [Real 0]); ("z"%string, [Real 0])]
    = before ++ (name, p) :: after
    /\ all_updated (dict_of [("a"%string, [Real 0]); ("w"%string, [Real 0]);
                             ("z"%string, [Real 0])]) before
    /\ dict_of [("a"%string, [Real 0]); ("w"%string, [Real 0]);
                ("z"%string, [Real 0])] !! name = Some r
    /\ allclose p r = true
    /\ "Parameter w was not updated!"%string
       = ("Parameter " ++ name ++ " was not updated!")%string.
Proof.
  apply (update_checker_first_stale (E:=toy_env)
           (dict_of [("a"%string, [Real 0]); ("w"%string, [Real 0]);
                     ("z"%string, [Real 0])])
           [("a"%string, [Real 1]); ("w"%string, [Real 0]); ("z"%string, [Real 0])]
           (loaded [])).
  vm_compute. reflexivity.
Defined.

Lemma unreached_parameter_is_caught_witness :
  exists msg,
    fst (guided_step (E:=unused_env) (toy_config 1)
           (dict_of (seg_model (with_unused [Real 1] [[Real 3]]))) 1%Z 0
           (with_unused [Real 1] [[Real 3]]))
    = inl (AssertionError msg).
Proof.
  apply (unreached_parameter_is_caught (E:=unused_env) (toy_config 1) 1%Z 0%Z
           (with_unused [Real 1] [[Real 3]]) "b" [Real 0]).
  - simpl. apply NoDup_cons. split; [| apply NoDup_singleton].
    intros Hin. apply list_elem_of_singleton in Hin. discriminate.
  - simpl. apply list_elem_of_further, list_elem_of_here.
  - repeat constructor.
  - vm_compute. reflexivity.
Defined.

Lemma checkpoint_of_a_completed_run_witness :
  checkpoints (script (E:=toy_env) two_epochs [([], 1%Z)] (loaded two_examples)
                      empty_disk).2
  = <[(ckpt_path ++ "pretrained_seg_octa500.pt")%string
      := seg_model (script (E:=toy_env) two_epochs [([], 1%Z)]
                           (loaded two_examples) empty_disk).1.2]> ∅.
Proof.
  apply (checkpoint_of_a_completed_run (E:=toy_env) two_epochs [([], 1%Z)]
           (loaded two_examples) empty_disk).
  - vm_compute. reflexivity.
  - simpl. lia.
Defined.

Lemma plot_names_repeat_every_epoch_witness :
  (plots (script (E:=toy_env) two_epochs [([], 1%Z)] (loaded two_examples)
                 empty_disk).2).*1
  = ["st0"; "st0"]%string.
Proof.
  apply (plot_names_repeat_every_epoch (E:=toy_env) two_epochs [([], 1%Z)]
           (loaded two_examples) empty_disk).
  vm_compute. reflexivity.
Defined.


Lemma plotted_images_are_clamped_witness :
  Forall (fun p => clamped_to (-1) 1 p.2.1 /\ clamped_to (-1) 1 p.2.2)
         (plots (script (E:=toy_env) two_epochs [([], 1%Z)] (loaded two_examples)
                        empty_disk).2).
Proof.
  apply (plotted_images_are_clamped (E:=toy_env) two_epochs [([], 1%Z)]
           (loaded two_examples) empty_disk).
  simpl. constructor.
Defined.

End toy_run_facts.

(** * Facts about the sizes in modules.py *)
Module modules_facts.
Import nn modules.
Local Open Scope nat_scope.

Lemma conv_out_3 h : 1 <= h -> conv_out h 3 1 1 = inr h.
Proof.
  intros Hh. unfold conv_out. destruct (Nat.ltb_spec (h + 2 * 1) 3); [lia |].
  f_equal. rewrite Nat.div_1_r. lia.
Qed.

Lemma conv_out_down h : 2 <= h -> conv_out h 4 2 1 = inr (h / 2).
Proof.
  intros Hh. unfold conv_out. destruct (Nat.ltb_spec (h + 2 * 1) 4); [lia |].
  f_equal. replace (h + 2 * 1 - 4) with (h - 2) by lia.
  replace h with (h - 2 + 1 * 2) at 2 by lia. rewrite Nat.div_add by lia. lia.
Qed.

Lemma conv_out_down_small h : h < 2 -> conv_out h 4 2 1 = inl RuntimeError.
Proof. intros Hh. unfold conv_out. by destruct (Nat.ltb_spec (h + 2 * 1) 4); [| lia]. Qed.

Lemma conv_out_4 h : 2 <= h -> conv_out h 4 1 1 = inr (h - 1).
Proof.
  intros Hh. unfold conv_out. destruct (Nat.ltb_spec (h + 2 * 1) 4); [lia |].
  f_equal. rewrite Nat.div_1_r. lia.
Qed.

Lemma conv_transpose_out_up h : 1 <= h -> conv_transpose_out h 4 2 1 = inr (2 * h).
Proof.
  intros Hh. unfold conv_transpose_out. destruct (Nat.eqb_spec h 0); [lia |].
  f_equal. lia.
Qed.

Lemma conv3_forward cin cout b h w :
  1 <= h -> 1 <= w ->
  layer_forward (Conv2d cin cout 3 1 1) (Size b cin h w) = inr (Size b cout h w).
Proof.
  intros Hh Hw. cbn [layer_forward channels height width batch].
  rewrite Nat.eqb_refl, !conv_out_3 by done. reflexivity.
Qed.

Lemma instance_norm_forward n x :
  height x * width x <> 1 -> layer_forward (InstanceNorm2d n) x = inr x.
Proof. intros H. cbn [layer_forward]. by destruct (Nat.eqb_spec (height x * width x) 1). Qed.

Lemma gelu_forward x : layer_forward GELU x = inr x.
Proof. reflexivity. Qed.

Lemma leaky_forward x : layer_forward LeakyReLU x = inr x.
Proof. reflexivity. Qed.

Lemma broadcast_same x : broadcast x x = inr x.
Proof.
  destruct x as [b c h w]. unfold broadcast, broadcast_dim. cbn [batch channels height width].
  by rewrite !Nat.eqb_refl.
Qed.

Lemma interpolate_ok x h w :
  1 <= height x -> 1 <= width x -> 1 <= h -> 1 <= w ->
  interpolate x h w = inr (Size (batch x) (channels x) h w).
Proof.
  intros. unfold interpolate.
  destruct (Nat.eqb_spec (height x) 0), (Nat.eqb_spec (width x) 0),
    (Nat.eqb_spec h 0), (Nat.eqb_spec w 0); try lia. reflexivity.
Qed.

Ltac step_sizes :=
  repeat first
    [ progress cbn [and_then]
    | rewrite gelu_forward
    | rewrite conv3_forward by done
    | rewrite instance_norm_forward by done ].

(** [SPADE] keeps the size of the feature it modulates. *)
Lemma SPADE_forward seg_nch nch b h w hs ws :
  1 <= h -> 1 <= w -> h * w <> 1 -> 1 <= hs -> 1 <= ws ->
  SPADE.forward (SPADE.init seg_nch nch) (Size b nch h w) (Size b seg_nch hs ws)
  = inr (Size b nch h w).
Proof.
  intros Hh Hw Hhw Hhs Hws. unfold SPADE.forward, SPADE.init.
  cbn [SPADE.instance_norm SPADE.embedding SPADE.gamma SPADE.beta].
  rewrite instance_norm_forward by done. cbn [and_then height width].
  rewrite interpolate_ok by done. cbn [and_then batch channels Sequential].
  rewrite conv3_forward by done. cbn [and_then].
  rewrite gelu_forward. cbn [and_then].
  rewrite conv3_forward by done. cbn [and_then].
  rewrite broadcast_same. cbn [and_then]. apply broadcast_same.
Qed.

Lemma SPADE_residual_block_forward seg_nch input_nch output_nch b h w hs ws :
  1 <= h -> 1 <= w -> h * w <> 1 -> 1 <= hs -> 1 <= ws ->
  SPADE_residual_block.forward
    (SPADE_residual_block.init seg_nch input_nch output_nch)
    (Size b input_nch h w) (Size b seg_nch hs ws)
  = inr (Size b output_nch h w).
Proof.
  intros Hh Hw Hhw Hhs Hws.
  unfold SPADE_residual_block.forward, SPADE_residual_block.init.
  cbn [SPADE_residual_block.conv_1 SPADE_residual_block.conv_2
       SPADE_residual_block.conv_3 SPADE_residual_block.SPADE_norm_1
       SPADE_residual_block.SPADE_norm_2 SPADE_residual_block.SPADE_norm_3
       SPADE_residual_block.activate].
  repeat first [rewrite SPADE_forward by done | progress step_sizes].
  apply broadcast_same.
Qed.

(** A residual block on any size: a single spatial element is the
    [ValueError] of its first instance norm, a wrong channel count or an
    empty extent the [RuntimeError] of its first convolution. *)
Lemma residual_block_forward input_nch output_nch b c h w :
  residual_block.forward (residual_block.init input_nch output_nch) (Size b c h w)
  = if h * w =? 1 then inl ValueError
    else if (c =? input_nch) && (1 <=? h) && (1 <=? w)
         then inr (Size b output_nch h w)
         else inl RuntimeError.
Proof.
  unfold residual_block.forward, residual_block.init.
  cbn [residual_block.conv_1 residual_block.conv_2 residual_block.conv_3
       residual_block.norm_1 residual_block.norm_2 residual_block.norm_3
       residual_block.activate Sequential].
  destruct (Nat.eqb_spec (h * w) 1) as [Hone|Hhw].
  { cbn [layer_forward height width]. by rewrite (proj2 (Nat.eqb_eq _ _) Hone). }
  destruct (Nat.eqb_spec c input_nch) as [->|Hc]; cbn [andb].
  - destruct (Nat.leb_spec 1 h) as [Hh|Hh], (Nat.leb_spec 1 w) as [Hw|Hw];
      cbn [andb].
    + step_sizes. apply broadcast_same.
    + step_sizes. cbn [layer_forward channels height width].
      rewrite Nat.eqb_refl. cbn [negb]. rewrite conv_out_3 by done.
      unfold conv_out at 1. cbn [and_then].
      by destruct (Nat.ltb_spec (w + 2 * 1) 3); [| lia].
    + step_sizes. cbn [layer_forward channels height width].
      rewrite Nat.eqb_refl. cbn [negb]. unfold conv_out at 1.
      by destruct (Nat.ltb_spec (h + 2 * 1) 3); [| lia].
    + step_sizes. cbn [layer_forward channels height width].
      rewrite Nat.eqb_refl. cbn [negb]. unfold conv_out at 1.
      by destruct (Nat.ltb_spec (h + 2 * 1) 3); [| lia].
  - step_sizes. cbn [layer_forward channels].
    by rewrite (proj2 (Nat.eqb_neq _ _) Hc).
Qed.

Lemma conv_transpose_forward cin cout b h w :
  1 <= h -> 1 <= w ->
  layer_forward (ConvTranspose2d cin cout 4 2 1) (Size b cin h w)
  = inr (Size b cout (2 * h) (2 * w)).
Proof.
  intros Hh Hw. cbn [layer_forward channels height width batch].
  rewrite Nat.eqb_refl, !conv_transpose_out_up by done. reflexivity.
Qed.

Lemma UpSample_forward cin cout b h w :
  1 <= h -> 1 <= w ->
  Sequential (UpSample cin cout) (Size b cin h w)
  = inr (Size b cout (2 * h) (2 * w)).
Proof.
  intros Hh Hw. unfold UpSample. cbn [Sequential].
  rewrite conv_transpose_forward by done. cbn [and_then].
  rewrite instance_norm_forward by (cbn [height width]; lia).
  by step_sizes.
Qed.

Lemma SPADE_Generator_forward output_nch b h w hs ws :
  1 <= h -> 1 <= w -> h * w <> 1 -> 1 <= hs -> 1 <= ws ->
  SPADE_Generator.forward (SPADE_Generator.init output_nch)
                          (Size b 1 h w) (Size b 1 hs ws)
  = inr (Size b output_nch (16 * h) (16 * w)).
Proof.
  intros Hh Hw Hhw Hhs Hws.
  unfold SPADE_Generator.forward, SPADE_Generator.init.
  cbn [SPADE_Generator.SPADE_block_0 SPADE_Generator.SPADE_block_1
       SPADE_Generator.SPADE_block_2 SPADE_Generator.SPADE_block_3
       SPADE_Generator.SPADE_block_4 SPADE_Generator.upsample_0
       SPADE_Generator.upsample_1 SPADE_Generator.upsample_2
       SPADE_Generator.upsample_3].
  rewrite SPADE_residual_block_forward by done. cbn [and_then].
  rewrite UpSample_forward by done. cbn [and_then].
  rewrite SPADE_residual_block_forward by lia. cbn [and_then].
  rewrite UpSample_forward by lia. cbn [and_then].
  rewrite SPADE_residual_block_forward by lia. cbn [and_then].
  rewrite UpSample_forward by lia. cbn [and_then].
  rewrite SPADE_residual_block_forward by lia. cbn [and_then].
  rewrite UpSample_forward by lia. cbn [and_then].
  rewrite SPADE_residual_block_forward by lia.
  do 2 f_equal; lia.
Qed.

Lemma conv_down_forward cin cout b h w :
  2 <= h -> 2 <= w ->
  layer_forward (Conv2d cin cout 4 2 1) (Size b cin h w)
  = inr (Size b cout (h / 2) (w / 2)).
Proof.
  intros Hh Hw. cbn [layer_forward channels height width batch].
  rewrite Nat.eqb_refl, !conv_out_down by done. reflexivity.
Qed.

Lemma ConvBlock_forward cin cout b h w :
  1 <= h -> 1 <= w -> h * w <> 1 ->
  Sequential (ConvBlock cin cout) (Size b cin h w) = inr (Size b cout h w).
Proof. intros. unfold ConvBlock. cbn [Sequential]. by step_sizes. Qed.

Lemma DownSample_forward cin cout b h w :
  2 <= h -> 2 <= w ->
  Sequential (DownSample cin cout) (Size b cin h w)
  = if (h / 2) * (w / 2) =? 1 then inl ValueError
    else inr (Size b cout (h / 2) (w / 2)).
Proof.
  intros Hh Hw. unfold DownSample. cbn [Sequential].
  rewrite conv_down_forward by done. cbn [and_then layer_forward height width].
  by destruct (_ =? 1).
Qed.

Lemma div_pow2_succ h n : h / 2 / 2 ^ n = h / 2 ^ S n.
Proof. rewrite Nat.Div0.div_div. by rewrite Nat.pow_succ_r'. Qed.

Lemma div_pow2_ge h n : 1 <= h / 2 ^ n -> 2 ^ n <= h.
Proof.
  intros H. pose proof (Nat.pow_nonzero 2 n ltac:(lia)).
  pose proof (Nat.Div0.mul_div_le h (2 ^ n)). nia.
Qed.

Lemma half_ge_pow2 h n : 1 <= h / 2 ^ S n -> 2 ^ n <= h / 2 /\ 2 <= h.
Proof.
  intros H. rewrite <- div_pow2_succ in H. apply div_pow2_ge in H.
  split; [done |]. pose proof (Nat.pow_nonzero 2 n ltac:(lia)).
  destruct (Nat.le_gt_cases 2 h) as [|Hlt]; [done |].
  assert (h / 2 = 0) by (apply Nat.div_small; lia). lia.
Qed.

(** The encoder's stack halves the spatial size once per hidden channel
    count and ends with the last of them; the last instance norm refuses a
    single remaining element. *)
Lemma layers_chain input_nch hidden b :
  forall rest pre h w,
    hidden = pre ++ rest ->
    1 <= h / 2 ^ length rest -> 1 <= w / 2 ^ length rest ->
    ImageEncoder.layers
      (imap (fun i => ImageEncoder.encoder_conv input_nch hidden (length pre + i)) rest)
      ((fun c => DownSample c c) <$> rest)
      (Size b (default input_nch (last pre)) h w)
    = if (negb (length rest =? 0))
         && ((h / 2 ^ length rest) * (w / 2 ^ length rest) =? 1)
      then inl ValueError
      else inr (Size b (default (default input_nch (last pre)) (last rest))
                     (h / 2 ^ length rest) (w / 2 ^ length rest)).
Proof.
  induction rest as [|c rest IH]; intros pre h w Hhid Hh Hw.
  { cbn [length Nat.eqb negb andb imap fmap list_fmap ImageEncoder.layers last
         default].
    by rewrite Nat.pow_0_r, !Nat.div_1_r. }
  destruct (half_ge_pow2 h (length rest) Hh) as [Hh2 Hh1].
  destruct (half_ge_pow2 w (length rest) Hw) as [Hw2 Hw1].
  pose proof (Nat.pow_nonzero 2 (length rest) ltac:(lia)) as Hpow.
  rewrite imap_cons. cbn [fmap list_fmap ImageEncoder.layers].
  assert (Hconv : ImageEncoder.encoder_conv input_nch hidden (length pre + 0) c
                  = ConvBlock (default input_nch (last pre)) c).
  { unfold ImageEncoder.encoder_conv. rewrite Nat.add_0_r.
    destruct pre as [|p pre _] using rev_ind; [done |].
    rewrite length_app, last_snoc. cbn [length default].
    destruct (Nat.eqb_spec (length pre + 1) 0); [lia |].
    rewrite Hhid, <- app_assoc, lookup_app_r by lia.
    by replace (length pre + 1 - 1 - length pre) with 0 by lia. }
  rewrite Hconv, ConvBlock_forward by nia. cbn [and_then].
  rewrite DownSample_forward by done.
  cbn [length negb Nat.eqb andb]. rewrite <- !div_pow2_succ.
  destruct (Nat.eqb_spec (h / 2 * (w / 2)) 1) as [Hone|Hne].
  - assert (length rest = 0) as Hlen.
    { destruct (Nat.eq_dec (length rest) 0) as [|Hn]; [done |]. exfalso.
      assert (2 <= 2 ^ length rest).
      { destruct (length rest) as [|n]; [done |]. rewrite Nat.pow_succ_r'.
        pose proof (Nat.pow_nonzero 2 n ltac:(lia)). lia. }
      nia. }
    rewrite Hlen. cbn [Nat.pow]. rewrite !Nat.div_1_r.
    by rewrite (proj2 (Nat.eqb_eq _ _) Hone).
  - cbn [and_then].
    specialize (IH (pre ++ [c]) (h / 2) (w / 2)).
    rewrite last_snoc, length_app in IH. cbn [length default from_option id] in IH.
    rewrite (imap_ext _ (fun i => ImageEncoder.encoder_conv input_nch hidden
                                                (length pre + 1 + i)))
      by (intros; unfold compose; f_equal; lia).
    rewrite IH; [| by rewrite <- app_assoc | by rewrite div_pow2_succ
                 | by rewrite div_pow2_succ].
    destruct rest as [|c' rest'].
    + cbn [length Nat.eqb negb andb Nat.pow last default from_option id].
      rewrite !Nat.div_1_r. by rewrite (proj2 (Nat.eqb_neq _ _) Hne).
    + cbn [length Nat.eqb negb andb]. destruct (_ =? 1); [done |].
      rewrite last_cons_cons.
      destruct (last (c' :: rest')) eqn:E; [done |].
      by apply last_None in E.
Qed.

Lemma ImageEncoder_sizes input_nch hidden H W b h w :
  hidden <> [] -> 1 <= b ->
  1 <= h / 2 ^ length hidden -> 1 <= w / 2 ^ length hidden ->
  and_then (ImageEncoder.init input_nch hidden H W)
           (fun self => ImageEncoder.forward self (Size b input_nch h w))
  = if (h / 2 ^ length hidden) * (w / 2 ^ length hidden) =? 1
    then inl ValueError
    else if default 0 (last hidden) * (h / 2 ^ length hidden)
                                    * (w / 2 ^ length hidden)
            =? default 0 (last hidden) * (H / 2 ^ length hidden)
                                       * (W / 2 ^ length hidden)
         then inr ((b, 256), (b, 256))
         else inl RuntimeError.
Proof.
  intros Hne Hb Hh Hw.
  unfold ImageEncoder.init, ImageEncoder.get_feature_size.
  destruct (last hidden) as [c|] eqn:Hlast; [| by apply last_None in Hlast].
  cbn [and_then default]. unfold ImageEncoder.forward.
  cbn [ImageEncoder.Conv ImageEncoder.Dsample ImageEncoder.fc_mu
       ImageEncoder.fc_var fst snd].
  pose proof (layers_chain input_nch hidden b hidden [] h w eq_refl Hh Hw) as Hc.
  cbn [length Nat.add last default] in Hc.
  rewrite Hlast in Hc. cbn [default] in Hc.
  change (fun i : nat => ImageEncoder.encoder_conv input_nch hidden i)
    with (ImageEncoder.encoder_conv input_nch hidden) in Hc.
  rewrite Hc. clear Hc.
  assert ((length hidden =? 0) = false) as ->.
  { apply Nat.eqb_neq. by destruct hidden. }
  cbn [negb andb].
  destruct (_ * _ =? 1); [done |]. cbn [and_then]. unfold view_rows.
  cbn [batch channels height width].
  destruct (Nat.eqb_spec b 0); [lia |]. cbn [and_then].
  unfold Linear. cbn [fst snd].
  destruct (_ =? _); done.
Qed.


Lemma ImageEncoder_returns input_nch hidden H W b :
  hidden <> [] -> 1 <= b ->
  1 <= H / 2 ^ length hidden -> 1 <= W / 2 ^ length hidden ->
  (H / 2 ^ length hidden) * (W / 2 ^ length hidden) <> 1 ->
  and_then (ImageEncoder.init input_nch hidden H W)
           (fun self => ImageEncoder.forward self (Size b input_nch H W))
  = inr ((b, 256), (b, 256)).
Proof.
  intros Hne Hb HH HW Hone. rewrite ImageEncoder_sizes by done.
  rewrite (proj2 (Nat.eqb_neq _ 1)) by done.
  by rewrite Nat.eqb_refl.
Qed.

Lemma reparameterize_size b :
  Semantic_Generator.reparameterize (b, 256) (b, 256) = inr (Size b 1 16 16).
Proof.
  unfold Semantic_Generator.reparameterize, broadcast2, broadcast_dim.
  cbn [fst snd]. rewrite !Nat.eqb_refl. cbn [and_then fst snd].
  rewrite !Nat.eqb_refl. cbn [and_then fst snd]. reflexivity.
Qed.

Lemma conv_out_down_inv h h' : conv_out h 4 2 1 = inr h' -> 2 <= h /\ h' = h / 2.
Proof.
  intros H. destruct (Nat.le_gt_cases 2 h) as [Hh|Hh].
  - rewrite conv_out_down in H by done. by injection H as <-.
  - by rewrite conv_out_down_small in H.
Qed.

Lemma conv_out_4_inv h h' : conv_out h 4 1 1 = inr h' -> 2 <= h /\ h' = h - 1.
Proof.
  intros H. destruct (Nat.le_gt_cases 2 h) as [Hh|Hh].
  - rewrite conv_out_4 in H by done. by injection H as <-.
  - unfold conv_out in H. by destruct (Nat.ltb_spec (h + 2 * 1) 4); [| lia].
Qed.

Lemma conv_forward_inv cin cout k s p x y :
  layer_forward (Conv2d cin cout k s p) x = inr y ->
  channels x = cin
  /\ conv_out (height x) k s p = inr (height y)
  /\ conv_out (width x) k s p = inr (width y)
  /\ batch y = batch x /\ channels y = cout.
Proof.
  cbn [layer_forward]. destruct (Nat.eqb_spec (channels x) cin); [| done].
  cbn [negb].
  destruct (conv_out (height x) k s p) as [|h']; [done |].
  destruct (conv_out (width x) k s p) as [|w']; [done |].
  cbn [and_then]. by intros [= <-].
Qed.

Lemma batch_norm_inv n x y :
  layer_forward (BatchNorm2d n) x = inr y ->
  y = x /\ channels x = n /\ batch x * (height x * width x) <> 1.
Proof.
  cbn [layer_forward]. destruct (Nat.eqb_spec (channels x) n); [| done].
  cbn [negb]. destruct (Nat.eqb_spec (batch x * (height x * width x)) 1); [done |].
  by intros [= <-].
Qed.

Lemma batch_norm_forward n b h w :
  b * (h * w) <> 1 -> layer_forward (BatchNorm2d n) (Size b n h w) = inr (Size b n h w).
Proof.
  intros H. cbn [layer_forward channels batch height width].
  rewrite Nat.eqb_refl. cbn [negb]. by destruct (Nat.eqb_spec (b * (h * w)) 1).
Qed.

Lemma conv4_forward cin cout b h w :
  2 <= h -> 2 <= w ->
  layer_forward (Conv2d cin cout 4 1 1) (Size b cin h w)
  = inr (Size b cout (h - 1) (w - 1)).
Proof.
  intros Hh Hw. cbn [layer_forward channels height width batch].
  rewrite Nat.eqb_refl, !conv_out_4 by done. reflexivity.
Qed.

Lemma div8_ge h : 24 <= h -> 12 <= h / 2 /\ 6 <= h / 2 / 2 /\ 3 <= h / 2 / 2 / 2.
Proof.
  intros Hh.
  assert (12 <= h / 2) by (apply Nat.div_le_lower_bound; lia).
  assert (6 <= h / 2 / 2) by (apply Nat.div_le_lower_bound; lia).
  assert (3 <= h / 2 / 2 / 2) by (apply Nat.div_le_lower_bound; lia).
  done.
Qed.

Lemma div8 h : h / 2 / 2 / 2 = h / 8.
Proof. rewrite !Nat.Div0.div_div. reflexivity. Qed.

Lemma div8_inv h : 3 <= h / 2 / 2 / 2 -> 24 <= h.
Proof.
  intros H. rewrite div8 in H.
  pose proof (Nat.Div0.mul_div_le h 8). lia.
Qed.

Lemma many_values b h w : 2 <= h -> 1 <= w -> b * (h * w) <> 1.
Proof.
  intros Hh Hw Hone. apply Nat.eq_mul_1 in Hone as [_ Hone].
  apply Nat.eq_mul_1 in Hone as [-> _]. lia.
Qed.

Lemma Discriminator_sizes input_nch hidden_nch b h w :
  24 <= h -> 24 <= w ->
  Discriminator.forward (Discriminator.init input_nch hidden_nch)
                        (Size b input_nch h w)
  = inr (Size b 1 (h / 8 - 2) (w / 8 - 2)).
Proof.
  intros Hh Hw.
  destruct (div8_ge h Hh) as (Hh2 & Hh4 & Hh8).
  destruct (div8_ge w Hw) as (Hw2 & Hw4 & Hw8).
  unfold Discriminator.forward, Discriminator.init. cbn [Sequential].
  rewrite conv_down_forward by lia. cbn [and_then]. rewrite leaky_forward. cbn [and_then].
  rewrite conv_down_forward by lia. cbn [and_then].
  rewrite batch_norm_forward by (apply many_values; lia). cbn [and_then]. rewrite leaky_forward. cbn [and_then].
  rewrite conv_down_forward by lia. cbn [and_then].
  rewrite batch_norm_forward by (apply many_values; lia). cbn [and_then]. rewrite leaky_forward. cbn [and_then].
  rewrite conv4_forward by lia. cbn [and_then].
  rewrite batch_norm_forward by (apply many_values; lia). cbn [and_then]. rewrite leaky_forward. cbn [and_then].
  rewrite conv4_forward by lia.
  cbn [and_then Sequential]. rewrite !div8. do 2 f_equal; lia.
Qed.

Lemma Sequential_cons_inv l ls x y :
  Sequential (l :: ls) x = inr y ->
  exists z, layer_forward l x = inr z /\ Sequential ls z = inr y.
Proof.
  cbn [Sequential]. destruct (layer_forward l x) as [e|z]; [done |]. eauto.
Qed.

Lemma Discriminator_returns input_nch hidden_nch x out :
  Discriminator.forward (Discriminator.init input_nch hidden_nch) x = inr out ->
  channels x = input_nch /\ 24 <= height x /\ 24 <= width x.
Proof.
  unfold Discriminator.forward, Discriminator.init. intros H.
  apply Sequential_cons_inv in H as (y1 & C1 & H).
  apply Sequential_cons_inv in H as (? & [= <-] & H).
  apply Sequential_cons_inv in H as (y2 & C2 & H).
  apply Sequential_cons_inv in H as (? & B2 & H).
  apply Sequential_cons_inv in H as (? & [= <-] & H).
  apply Sequential_cons_inv in H as (y3 & C3 & H).
  apply Sequential_cons_inv in H as (? & B3 & H).
  apply Sequential_cons_inv in H as (? & [= <-] & H).
  apply Sequential_cons_inv in H as (y4 & C4 & H).
  apply Sequential_cons_inv in H as (? & B4 & H).
  apply Sequential_cons_inv in H as (? & [= <-] & H).
  apply Sequential_cons_inv in H as (y5 & C5 & _).
  apply batch_norm_inv in B2 as (-> & _ & _).
  apply batch_norm_inv in B3 as (-> & _ & _).
  apply batch_norm_inv in B4 as (-> & _ & _).
  apply conv_forward_inv in C1 as (Hc & Eh1 & Ew1 & _ & _).
  apply conv_forward_inv in C2 as (_ & Eh2 & Ew2 & _ & _).
  apply conv_forward_inv in C3 as (_ & Eh3 & Ew3 & _ & _).
  apply conv_forward_inv in C4 as (_ & Eh4 & Ew4 & _ & _).
  apply conv_forward_inv in C5 as (_ & Eh5 & Ew5 & _ & _).
  apply conv_out_down_inv in Eh1 as [? Eh1], Ew1 as [? Ew1],
    Eh2 as [? Eh2], Ew2 as [? Ew2], Eh3 as [? Eh3], Ew3 as [? Ew3].
  apply conv_out_4_inv in Eh4 as [? Eh4], Ew4 as [? Ew4],
    Eh5 as [? Eh5], Ew5 as [? Ew5].
  split; [done |]. split; apply div8_inv.
  - rewrite <- Eh1, <- Eh2, <- Eh3. lia.
  - rewrite <- Ew1, <- Ew2, <- Ew3. lia.
Qed.


Section VGG19_facts.
Context {A : Type}.
Implicit Types features slice : list (A -> result A).

Lemma add_modules_range features lo n slice :
  lo + n <= length features ->
  VGG19.add_modules features (seq lo n) slice
  = inr (slice ++ take n (drop lo features)).
Proof.
  revert lo slice. induction n as [|n IH]; intros lo slice Hlen.
  { cbn. by rewrite app_nil_r. }
  cbn [seq VGG19.add_modules].
  destruct (lookup_lt_is_Some_2 features lo ltac:(lia)) as [m Hm].
  rewrite Hm, IH by lia. rewrite (drop_S _ _ _ Hm). cbn [take].
  by rewrite <- app_assoc.
Qed.

Lemma add_modules_short features lo n slice :
  lo <= length features -> length features < lo + n ->
  VGG19.add_modules features (seq lo n) slice = inl IndexError.
Proof.
  revert lo slice. induction n as [|n IH]; intros lo slice Hlo Hlen; [lia |].
  cbn [seq VGG19.add_modules].
  destruct (features !! lo) as [m|] eqn:Hm; [| done].
  apply lookup_lt_Some in Hm. apply IH; lia.
Qed.

Lemma VGG19_init_slices features :
  VGG19.init features
  = if 30 <=? length features
    then inr {| VGG19.slice1 := take 2 features;
                VGG19.slice2 := take 5 (drop 2 features);
                VGG19.slice3 := take 5 (drop 7 features);
                VGG19.slice4 := take 9 (drop 12 features);
                VGG19.slice5 := take 9 (drop 21 features) |}
    else inl IndexError.
Proof.
  unfold VGG19.init, VGG19.range. cbn [Nat.sub].
  destruct (Nat.leb_spec 30 (length features)) as [Hlen|Hlen].
  { rewrite !add_modules_range by lia. reflexivity. }
  destruct (Nat.le_gt_cases 2 (length features)) as [H2|H2];
    [| by rewrite add_modules_short by lia].
  rewrite add_modules_range by lia. cbn [and_then].
  destruct (Nat.le_gt_cases 7 (length features)) as [H7|H7];
    [| by rewrite add_modules_short by lia].
  rewrite add_modules_range by lia. cbn [and_then].
  destruct (Nat.le_gt_cases 12 (length features)) as [H12|H12];
    [| by rewrite add_modules_short by lia].
  rewrite add_modules_range by lia. cbn [and_then].
  destruct (Nat.le_gt_cases 21 (length features)) as [H21|H21];
    [| by rewrite add_modules_short by lia].
  rewrite add_modules_range by lia. cbn [and_then].
  by rewrite add_modules_short by lia.
Qed.

Lemma run_app (ms1 ms2 : list (A -> result A)) X :
  VGG19.run (ms1 ++ ms2) X = and_then (VGG19.run ms1 X) (VGG19.run ms2).
Proof.
  revert X. induction ms1 as [|m ms1 IH]; intros X; [done |].
  cbn [app VGG19.run]. destruct (m X) as [e|Y]; [done |]. apply IH.
Qed.

End VGG19_facts.

Lemma cat1_same b c1 c2 h w :
  cat1 (Size b c1 h w) (Size b c2 h w) = inr (Size b (c1 + c2) h w).
Proof. unfold cat1. cbn [batch channels height width]. by rewrite !Nat.eqb_refl. Qed.

Lemma cat0_same b1 b2 c h w :
  cat0 (Size b1 c h w) (Size b2 c h w) = inr (Size (b1 + b2) c h w).
Proof. unfold cat0. cbn [batch channels height width]. by rewrite !Nat.eqb_refl. Qed.


Lemma instance_norm_single n x :
  height x * width x = 1 -> layer_forward (InstanceNorm2d n) x = inl ValueError.
Proof. intros H. cbn [layer_forward]. by rewrite H. Qed.

Lemma conv_wrong_channels cin cout k s p x :
  channels x <> cin -> layer_forward (Conv2d cin cout k s p) x = inl RuntimeError.
Proof.
  intros H. cbn [layer_forward]. by destruct (Nat.eqb_spec (channels x) cin).
Qed.

Lemma pow2_div_one H n : 2 ^ n <= H -> H < 2 ^ S n -> H / 2 ^ n = 1.
Proof.
  intros Hlo Hhi. rewrite Nat.pow_succ_r' in Hhi.
  pose proof (Nat.pow_nonzero 2 n ltac:(lia)).
  symmetry. apply (Nat.div_unique H (2 ^ n) 1 (H - 2 ^ n)); lia.
Qed.

(** X10: on a feature of at least one element per extent, [SPADE] returns
    a tensor of the feature's size whatever the spatial size of the
    segmentation map, which is resized to the feature; a feature of
    one spatial element is the [ValueError] of the instance norm. *)
Theorem SPADE_size seg_nch output_nch b h w hs ws :
  1 <= seg_nch -> 1 <= output_nch -> 1 <= b ->
  1 <= h -> 1 <= w -> 1 <= hs -> 1 <= ws ->
  SPADE.forward (SPADE.init seg_nch output_nch)
                (Size b output_nch h w) (Size b seg_nch hs ws)
  = if h * w =? 1 then inl ValueError else inr (Size b output_nch h w).
Proof.
  intros _ _ _ Hh Hw Hhs Hws.
  destruct (Nat.eqb_spec (h * w) 1) as [Hone|Hne].
  - unfold SPADE.forward, SPADE.init. cbn [SPADE.instance_norm].
    by rewrite instance_norm_single.
  - by apply SPADE_forward.
Qed.

Lemma SPADE_size_witness :
  SPADE.forward (SPADE.init 1 16) (Size 8 16 32 32) (Size 8 1 256 256)
  = inr (Size 8 16 32 32).
Proof. apply (SPADE_size 1 16 8 32 32 256 256); lia. Defined.

(** X11: a SPADE residual block turns [input_nch] channels into
    [output_nch] channels and keeps the batch and spatial size; a feature
    of one spatial element is a [ValueError]. *)
Theorem SPADE_residual_block_size seg_nch input_nch output_nch b h w hs ws :
  1 <= seg_nch -> 1 <= input_nch -> 1 <= output_nch -> 1 <= b ->
  1 <= h -> 1 <= w -> 1 <= hs -> 1 <= ws ->
  SPADE_residual_block.forward
    (SPADE_residual_block.init seg_nch input_nch output_nch)
    (Size b input_nch h w) (Size b seg_nch hs ws)
  = if h * w =? 1 then inl ValueError else inr (Size b output_nch h w).
Proof.
  intros _ _ _ _ Hh Hw Hhs Hws.
  destruct (Nat.eqb_spec (h * w) 1) as [Hone|Hne].
  - unfold SPADE_residual_block.forward, SPADE_residual_block.init.
    cbn [SPADE_residual_block.SPADE_norm_1].
    unfold SPADE.forward, SPADE.init. cbn [SPADE.instance_norm].
    by rewrite instance_norm_single.
  - by apply SPADE_residual_block_forward.
Qed.

Lemma SPADE_residual_block_size_witness :
  SPADE_residual_block.forward (SPADE_residual_block.init 1 16 8)
                               (Size 8 16 32 32) (Size 8 1 256 256)
  = inr (Size 8 8 32 32).
Proof. apply (SPADE_residual_block_size 1 16 8 8 32 32 256 256); lia. Defined.

(** X12: a residual block turns [input_nch] channels into [output_nch]
    channels and keeps the batch and spatial size; one spatial element is
    the [ValueError] of the first instance norm, which comes before the
    [RuntimeError] of a wrong channel count. *)
Theorem residual_block_size input_nch output_nch b c h w :
  1 <= input_nch -> 1 <= output_nch -> 1 <= b -> 1 <= c ->
  1 <= h -> 1 <= w ->
  residual_block.forward (residual_block.init input_nch output_nch) (Size b c h w)
  = if h * w =? 1 then inl ValueError
    else if c =? input_nch then inr (Size b output_nch h w)
    else inl RuntimeError.
Proof.
  intros _ _ _ _ Hh Hw. rewrite residual_block_forward.
  destruct (Nat.leb_spec 1 h); [| lia]. destruct (Nat.leb_spec 1 w); [| lia].
  by rewrite !andb_true_r.
Qed.

Lemma residual_block_size_witness :
  residual_block.forward (residual_block.init 3 5) (Size 2 4 1 1) = inl ValueError
  /\ residual_block.forward (residual_block.init 3 5) (Size 2 4 6 7)
     = inl RuntimeError
  /\ residual_block.forward (residual_block.init 3 5) (Size 2 3 6 7)
     = inr (Size 2 5 6 7).
Proof.
  split; [apply (residual_block_size 3 5 2 4 1 1); lia |].
  split; [apply (residual_block_size 3 5 2 4 6 7); lia |].
  apply (residual_block_size 3 5 2 3 6 7); lia.
Defined.

(** X13: [ConvBlock] changes the channels only; the channel count is
    checked first, and one spatial element is then the [ValueError] of
    the instance norm. *)
Theorem ConvBlock_size input_nch output_nch b c h w :
  1 <= input_nch -> 1 <= output_nch -> 1 <= b -> 1 <= c ->
  1 <= h -> 1 <= w ->
  Sequential (ConvBlock input_nch output_nch) (Size b c h w)
  = if negb (c =? input_nch) then inl RuntimeError
    else if h * w =? 1 then inl ValueError
    else inr (Size b output_nch h w).
Proof.
  intros _ _ _ _ Hh Hw. unfold ConvBlock. cbn [Sequential].
  destruct (Nat.eqb_spec c input_nch) as [->|Hc]; cbn [negb].
  - rewrite conv3_forward by done. cbn [and_then].
    destruct (Nat.eqb_spec (h * w) 1) as [Hone|Hne].
    + by rewrite instance_norm_single.
    + by step_sizes.
  - by rewrite conv_wrong_channels.
Qed.

Lemma ConvBlock_size_witness :
  Sequential (ConvBlock 3 4) (Size 8 3 256 256) = inr (Size 8 4 256 256).
Proof. apply (ConvBlock_size 3 4 8 3 256 256); lia. Defined.

(** X14: [DownSample] halves both extents, rounding down; an extent
    below 2 is the [RuntimeError] of the convolution, and an input of
    2 or 3 by 2 or 3 leaves one element, the [ValueError] of the
    instance norm. *)
Theorem DownSample_size input_nch output_nch b h w :
  1 <= input_nch -> 1 <= output_nch -> 1 <= b ->
  Sequential (DownSample input_nch output_nch) (Size b input_nch h w)
  = if (h <? 2) || (w <? 2) then inl RuntimeError
    else if (h / 2) * (w / 2) =? 1 then inl ValueError
    else inr (Size b output_nch (h / 2) (w / 2)).
Proof.
  intros _ _ _.
  destruct (Nat.ltb_spec h 2) as [Hh|Hh]; cbn [orb].
  { unfold DownSample. cbn [Sequential layer_forward channels height].
    rewrite Nat.eqb_refl. cbn [negb]. by rewrite conv_out_down_small. }
  destruct (Nat.ltb_spec w 2) as [Hw|Hw].
  { unfold DownSample. cbn [Sequential layer_forward channels height width].
    rewrite Nat.eqb_refl. cbn [negb].
    rewrite conv_out_down by done. cbn [and_then].
    by rewrite conv_out_down_small. }
  by apply DownSample_forward.
Qed.

Lemma DownSample_size_witness :
  Sequential (DownSample 4 4) (Size 8 4 3 2) = inl ValueError
  /\ Sequential (DownSample 4 4) (Size 8 4 1 9) = inl RuntimeError
  /\ Sequential (DownSample 4 4) (Size 8 4 7 9) = inr (Size 8 4 3 4).
Proof.
  split; [apply (DownSample_size 4 4 8 3 2); lia |].
  split; [apply (DownSample_size 4 4 8 1 9); lia |].
  apply (DownSample_size 4 4 8 7 9); lia.
Defined.

(** X15: [UpSample] doubles both extents, and a [DownSample] after it
    gives the spatial size back; an input of one element passes
    [UpSample] and is the [ValueError] of the [DownSample]. *)
Theorem UpSample_then_DownSample c1 c2 c3 b h w :
  1 <= c1 -> 1 <= c2 -> 1 <= c3 -> 1 <= b -> 1 <= h -> 1 <= w ->
  Sequential (UpSample c1 c2) (Size b c1 h w) = inr (Size b c2 (2 * h) (2 * w))
  /\ and_then (Sequential (UpSample c1 c2) (Size b c1 h w))
              (Sequential (DownSample c2 c3))
     = if h * w =? 1 then inl ValueError else inr (Size b c3 h w).
Proof.
  intros _ _ _ _ Hh Hw. rewrite UpSample_forward by done. split; [done |].
  cbn [and_then]. rewrite DownSample_forward by lia.
  rewrite !(Nat.mul_comm 2), !Nat.div_mul by lia. reflexivity.
Qed.

Lemma UpSample_then_DownSample_witness :
  Sequential (UpSample 16 16) (Size 8 16 16 16) = inr (Size 8 16 32 32)
  /\ and_then (Sequential (UpSample 16 16) (Size 8 16 16 16))
              (Sequential (DownSample 16 4))
     = inr (Size 8 4 16 16).
Proof. apply (UpSample_then_DownSample 16 16 4 8 16 16); lia. Defined.

(** X16: the SPADE generator turns a one-channel latent into an
    [output_nch]-channel image sixteen times as large in both extents;
    a latent of one spatial element is a [ValueError]. *)
Theorem SPADE_Generator_size output_nch b h w hs ws :
  1 <= output_nch -> 1 <= b -> 1 <= h -> 1 <= w -> 1 <= hs -> 1 <= ws ->
  SPADE_Generator.forward (SPADE_Generator.init output_nch)
                          (Size b 1 h w) (Size b 1 hs ws)
  = if h * w =? 1 then inl ValueError
    else inr (Size b output_nch (16 * h) (16 * w)).
Proof.
  intros _ _ Hh Hw Hhs Hws.
  destruct (Nat.eqb_spec (h * w) 1) as [Hone|Hne].
  - unfold SPADE_Generator.forward, SPADE_Generator.init.
    cbn [SPADE_Generator.SPADE_block_0].
    unfold SPADE_residual_block.forward, SPADE_residual_block.init.
    cbn [SPADE_residual_block.SPADE_norm_1].
    unfold SPADE.forward, SPADE.init. cbn [SPADE.instance_norm].
    by rewrite instance_norm_single.
  - by apply SPADE_Generator_forward.
Qed.

Lemma SPADE_Generator_size_witness :
  SPADE_Generator.forward (SPADE_Generator.init 3) (Size 8 1 16 16)
                          (Size 8 1 256 256)
  = inr (Size 8 3 256 256).
Proof. apply (SPADE_Generator_size 3 8 16 16 256 256); lia. Defined.



(** X18: on an image that keeps at least one element per extent through
    the [n = len(hidden_nchs)] halvings, the encoder returns two
    [batch x 256] tensors when the image leaves as many features as the
    size given to the constructor, and the linear layer raises a
    [RuntimeError] otherwise; an image that ends in a single spatial
    element is the [ValueError] of the last instance norm. *)
Theorem ImageEncoder_size input_nch hidden_nchs H W b h w :
  hidden_nchs <> [] ->
  1 <= input_nch -> Forall (fun c => 1 <= c) hidden_nchs -> 1 <= b ->
  1 <= H / 2 ^ length hidden_nchs -> 1 <= W / 2 ^ length hidden_nchs ->
  1 <= h / 2 ^ length hidden_nchs -> 1 <= w / 2 ^ length hidden_nchs ->
  and_then (ImageEncoder.init input_nch hidden_nchs H W)
           (fun self => ImageEncoder.forward self (Size b input_nch h w))
  = if (h / 2 ^ length hidden_nchs) * (w / 2 ^ length hidden_nchs) =? 1
    then inl ValueError
    else if default 0 (last hidden_nchs) * (h / 2 ^ length hidden_nchs)
                                         * (w / 2 ^ length hidden_nchs)
            =? default 0 (last hidden_nchs) * (H / 2 ^ length hidden_nchs)
                                            * (W / 2 ^ length hidden_nchs)
         then inr ((b, 256), (b, 256))
         else inl RuntimeError.
Proof. intros Hne _ _ Hb _ _ Hh Hw. by apply ImageEncoder_sizes. Qed.

Lemma ImageEncoder_size_witness :
  and_then (ImageEncoder.init 3 [4; 8] 64 64)
           (fun self => ImageEncoder.forward self (Size 8 3 64 64))
  = inr ((8, 256), (8, 256))
  /\ and_then (ImageEncoder.init 3 [4; 8] 64 64)
              (fun self => ImageEncoder.forward self (Size 8 3 64 32))
     = inl RuntimeError.
Proof.
  split.
  - apply (ImageEncoder_size 3 [4; 8] 64 64 8 64 64);
      [done | lia | repeat constructor; lia | lia | vm_compute; lia
       | vm_compute; lia | vm_compute; lia | vm_compute; lia].
  - apply (ImageEncoder_size 3 [4; 8] 64 64 8 64 32);
      [done | lia | repeat constructor; lia | lia | vm_compute; lia
       | vm_compute; lia | vm_compute; lia | vm_compute; lia].
Defined.

(** X19: an encoder built for images of [2 ** n] to [2 ** (n+1) - 1]
    elements per extent, [n = len(hidden_nchs)], raises the [ValueError]
    on every image of the size it was built for. *)
Theorem ImageEncoder_single_element input_nch hidden_nchs H W b :
  hidden_nchs <> [] ->
  1 <= input_nch -> Forall (fun c => 1 <= c) hidden_nchs -> 1 <= b ->
  2 ^ length hidden_nchs <= H < 2 ^ S (length hidden_nchs) ->
  2 ^ length hidden_nchs <= W < 2 ^ S (length hidden_nchs) ->
  and_then (ImageEncoder.init input_nch hidden_nchs H W)
           (fun self => ImageEncoder.forward self (Size b input_nch H W))
  = inl ValueError.
Proof.
  intros Hne _ _ Hb [HH1 HH2] [HW1 HW2].
  pose proof (pow2_div_one H _ HH1 HH2) as HH.
  pose proof (pow2_div_one W _ HW1 HW2) as HW.
  rewrite ImageEncoder_sizes by (done || lia). by rewrite HH, HW.
Qed.

Lemma ImageEncoder_single_element_witness :
  and_then (ImageEncoder.init 3 [4; 8; 16; 32; 64] 32 32)
           (fun self => ImageEncoder.forward self (Size 8 3 32 32))
  = inl ValueError.
Proof.
  apply (ImageEncoder_single_element 3 [4; 8; 16; 32; 64] 32 32 8);
    [done | lia | repeat constructor; lia | lia | vm_compute; lia
     | vm_compute; lia].
Defined.

(** X20: built for [H x W] images, [Semantic_Generator] returns a
    [3 x 256 x 256] image with two [batch x 256] codes on every image of
    that size, whatever [H] and [W]: the encoder is given the image with
    its two spatial axes swapped, which leaves the number of features
    unchanged, and the latent is always [1 x 16 x 16]. *)
Theorem Semantic_Generator_size input_nch encoder_nchs H W b hs ws :
  encoder_nchs <> [] ->
  1 <= input_nch -> Forall (fun c => 1 <= c) encoder_nchs -> 1 <= b ->
  1 <= H / 2 ^ length encoder_nchs -> 1 <= W / 2 ^ length encoder_nchs ->
  (H / 2 ^ length encoder_nchs) * (W / 2 ^ length encoder_nchs) <> 1 ->
  1 <= hs -> 1 <= ws ->
  and_then (Semantic_Generator.init input_nch encoder_nchs H W)
           (fun self => Semantic_Generator.forward self (Size b input_nch H W)
                                                   (Size b 1 hs ws))
  = inr (Size b 3 256 256, (b, 256), (b, 256)).
Proof.
  intros Hne _ _ Hb HH HW Hone Hhs Hws.
  pose proof (ImageEncoder_sizes input_nch encoder_nchs H W b W H Hne Hb HW HH) as Henc.
  rewrite (proj2 (Nat.eqb_neq _ 1)) in Henc by lia.
  rewrite (proj2 (Nat.eqb_eq _ _)) in Henc by lia.
  unfold Semantic_Generator.init.
  destruct (ImageEncoder.init input_nch encoder_nchs H W) as [e|enc]; [done |].
  cbn [and_then] in *. unfold Semantic_Generator.forward.
  cbn [Semantic_Generator.style_encoder Semantic_Generator.generator].
  unfold Semantic_Generator.permute_0132. cbn [batch channels height width].
  rewrite Henc. cbn [and_then].
  rewrite reparameterize_size. cbn [and_then].
  rewrite SPADE_Generator_forward by (done || lia).
  reflexivity.
Qed.

Lemma Semantic_Generator_size_witness :
  and_then (Semantic_Generator.init 3 [4; 8] 100 60)
           (fun self => Semantic_Generator.forward self (Size 2 3 100 60)
                                                   (Size 2 1 100 60))
  = inr (Size 2 3 256 256, (2, 256), (2, 256)).
Proof.
  apply (Semantic_Generator_size 3 [4; 8] 100 60 2 100 60);
    [done | lia | repeat constructor; lia | lia | vm_compute; lia
     | vm_compute; lia | vm_compute; lia | lia | lia].
Defined.

(** X21: the discriminator returns exactly on inputs of [input_nch]
    channels and at least 24 elements per extent, and its output is then
    one channel of [h // 8 - 2] by [w // 8 - 2] patches. *)
Theorem Discriminator_size input_nch hidden_nch b c h w out :
  1 <= input_nch -> 1 <= hidden_nch -> 1 <= b -> 1 <= c ->
  (Discriminator.forward (Discriminator.init input_nch hidden_nch) (Size b c h w)
   = inr out
   <-> c = input_nch /\ 24 <= h /\ 24 <= w
       /\ out = Size b 1 (h / 8 - 2) (w / 8 - 2)).
Proof.
  intros _ _ _ _. split.
  - intros Hout. destruct (Discriminator_returns _ _ _ _ Hout) as (Hc & Hh & Hw).
    cbn [channels height width] in *. subst c.
    rewrite Discriminator_sizes in Hout by done. by injection Hout as <-.
  - intros (-> & Hh & Hw & ->). by apply Discriminator_sizes.
Qed.

Lemma Discriminator_size_witness :
  Discriminator.forward (Discriminator.init 4 64) (Size 16 4 256 256)
  = inr (Size 16 1 30 30).
Proof.
  apply (Discriminator_size 4 64 16 4 256 256 (Size 16 1 30 30));
    [lia | lia | lia | lia |].
  split; [reflexivity |]. split; [lia |]. split; [lia | reflexivity].
Defined.

(** X22: [VGG19] can be built exactly when the feature list has at least
    30 layers, with fewer [vgg_pretrained_features[x]] is an
    [IndexError]; and what is built is the same as from the first 30
    layers alone. *)
Theorem VGG19_init_needs_30_layers {A : Type} (features : list (A -> result A)) :
  (VGG19.init features = inl IndexError <-> length features < 30)
  /\ VGG19.init (take 30 features) = VGG19.init features.
Proof.
  rewrite !VGG19_init_slices, length_take.
  destruct (Nat.leb_spec 30 (length features)) as [Hlen|Hlen].
  - split; [split; [done | lia] |].
    destruct (Nat.leb_spec 30 (30 `min` length features)); [| lia].
    rewrite !take_take, !take_drop_commute, !take_take.
    reflexivity.
  - split; [split; [intros _; lia | done] |].
    by destruct (Nat.leb_spec 30 (30 `min` length features)); [lia |].
Qed.

(** X23: the five outputs of [VGG19] are what the first 2, 7, 12, 21 and
    30 layers of the feature list compute from the input, and the first
    layer that raises ends the call with its exception. *)
Theorem VGG19_outputs_are_prefixes {A : Type} (features : list (A -> result A)) X :
  30 <= length features ->
  and_then (VGG19.init features) (fun self => VGG19.forward self X)
  = and_then (VGG19.run (take 2 features) X) (fun h_relu1 =>
    and_then (VGG19.run (take 7 features) X) (fun h_relu2 =>
    and_then (VGG19.run (take 12 features) X) (fun h_relu3 =>
    and_then (VGG19.run (take 21 features) X) (fun h_relu4 =>
    and_then (VGG19.run (take 30 features) X) (fun h_relu5 =>
    inr [h_relu1; h_relu2; h_relu3; h_relu4; h_relu5]))))).
Proof.
  intros Hlen. rewrite VGG19_init_slices.
  destruct (Nat.leb_spec 30 (length features)); [| lia].
  cbn [and_then]. unfold VGG19.forward.
  cbn [VGG19.slice1 VGG19.slice2 VGG19.slice3 VGG19.slice4 VGG19.slice5].
  rewrite <- (take_take_drop features 21 9 : _ = take 30 features),
    <- (take_take_drop features 12 9 : _ = take 21 features),
    <- (take_take_drop features 7 5 : _ = take 12 features),
    <- (take_take_drop features 2 5 : _ = take 7 features).
  rewrite !run_app.
  destruct (VGG19.run (take 2 features) X) as [e|h1]; [done |]. cbn [and_then].
  destruct (VGG19.run (take 5 (drop 2 features)) h1) as [e|h2]; [done |].
  cbn [and_then].
  destruct (VGG19.run (take 5 (drop 7 features)) h2) as [e|h3]; [done |].
  cbn [and_then].
  destruct (VGG19.run (take 9 (drop 12 features)) h3) as [e|h4]; [done |].
  cbn [and_then].
  by destruct (VGG19.run (take 9 (drop 21 features)) h4) as [e|h5].
Qed.

Lemma VGG19_outputs_are_prefixes_witness :
  and_then (VGG19.init (replicate 37 (fun n : nat => @inr exn nat (S n))))
           (fun self => VGG19.forward self 0)
  = inr [2; 7; 12; 21; 30].
Proof.
  apply (VGG19_outputs_are_prefixes
           (replicate 37 (fun n : nat => @inr exn nat (S n))) 0).
  vm_compute. lia.
Defined.

(** X24: the dimension checker at the end of the file ends normally and
    prints the size [2 * batch, 1, 30, 30]; for the batch of 8 it uses,
    [16, 1, 30, 30]. *)
Theorem dimension_checker_output b :
  1 <= b -> dimension_checker b = inr (Size (b + b) 1 30 30).
Proof.
  intros Hb. unfold dimension_checker.
  pose proof (ImageEncoder_returns 3 [4; 8; 16; 32; 64] 256 256 b
                ltac:(done) Hb ltac:(vm_compute; lia) ltac:(vm_compute; lia)
                ltac:(vm_compute; lia)) as Henc.
  destruct (ImageEncoder.init 3 [4; 8; 16; 32; 64] 256 256) as [e|encoder];
    [done |].
  cbn [and_then] in *. rewrite Henc. cbn [and_then].
  rewrite reparameterize_size. cbn [and_then].
  rewrite SPADE_Generator_forward by (vm_compute; lia). cbn [and_then].
  change (16 * 16) with 256.
  rewrite !cat1_same. cbn [and_then]. rewrite cat0_same. cbn [and_then].
  change (3 + 1) with 4.
  rewrite Discriminator_sizes by (vm_compute; lia). reflexivity.
Qed.

Lemma dimension_checker_output_witness :
  dimension_checker 8 = inr (Size 16 1 30 30).
Proof. apply (dimension_checker_output 8). lia. Defined.

End modules_facts.
